(** * Scrunch client: network synchronisation and entity lifecycle

    A shallow embedding of the client sources
    - [client/entities/Entity.ts] (the entity lifecycle state machine) and
    - the connection class ([Connection]: inbound dispatch, outbound
      senders),
    together with the properties of the natural-language specification
    that concern them.

    JavaScript values are a small tree type, the methods of the two
    classes are state-passing computations over a [Runtime] (console,
    [Game.shared], the socket) that either return, throw, or leave the
    modelled fragment. *)

From Stdlib Require Import ZArith List String Ascii Bool Lia.
Import ListNotations.
Open Scope Z_scope.

(* ===================================================================== *)
(** ** JavaScript values *)
(* ===================================================================== *)

#[local] Unset Elimination Schemes.

(** The values a decoded frame can hold: numbers are restricted to the
    integers, a string is identified with the sequence of its bytes
    (UTF-8), an object is the list of its own properties in insertion
    order. *)
Inductive value : Type :=
| VUndefined
| VNull
| VBool (b : bool)
| VNum (n : Z)
| VStr (s : string)
| VArr (items : list value)
| VObj (fields : list (string * value)).
#[local] Set Elimination Schemes.

(** Induction on values, through the items of arrays and the fields of
    objects. *)
Section ValueInd.

Variable P : value -> Prop.
Hypothesis Hundefined : P VUndefined.
Hypothesis Hnull : P VNull.
Hypothesis Hbool : forall b, P (VBool b).
Hypothesis Hnum : forall n, P (VNum n).
Hypothesis Hstr : forall s, P (VStr s).
Hypothesis Harr : forall items, Forall P items -> P (VArr items).
Hypothesis Hobj : forall fields, Forall (fun kv => P (snd kv)) fields -> P (VObj fields).

Fixpoint value_ind (v : value) : P v :=
  match v with
  | VUndefined => Hundefined
  | VNull => Hnull
  | VBool b => Hbool b
  | VNum n => Hnum n
  | VStr s => Hstr s
  | VArr items =>
      Harr items
        ((fix all (l : list value) : Forall P l :=
            match l with
            | [] => Forall_nil _
            | x :: rest => Forall_cons x (value_ind x) (all rest)
            end) items)
  | VObj fields =>
      Hobj fields
        ((fix all (l : list (string * value)) : Forall (fun kv => P (snd kv)) l :=
            match l with
            | [] => Forall_nil _
            | kv :: rest => Forall_cons kv (value_ind (snd kv)) (all rest)
            end) fields)
  end.

End ValueInd.

(** [typeof v], a string. *)
Definition typeof (v : value) : string :=
  match v with
  | VUndefined => "undefined"
  | VNull => "object"
  | VBool _ => "boolean"
  | VNum _ => "number"
  | VStr _ => "string"
  | VArr _ => "object"
  | VObj _ => "object"
  end.

(** [v == undefined]: the abstract equality comparison against the
    undefined value holds for [undefined] and [null] only. *)
Definition eq_undefined (v : value) : bool :=
  match v with
  | VUndefined | VNull => true
  | _ => false
  end.

(** [v === n] for a number literal [n], as a [case] label compares. *)
Definition strict_eq_num (v : value) (n : Z) : bool :=
  match v with
  | VNum m => m =? n
  | _ => false
  end.

(** Decimal name of an array index, the property key [v[i]] looks up in a
    plain object. *)
Definition digit_of (d : nat) : ascii := ascii_of_nat (48 + d).

Fixpoint index_key_aux (fuel n : nat) (acc : string) : string :=
  match fuel with
  | O => acc
  | S fuel' =>
      let acc' := String (digit_of (n mod 10)) acc in
      match (n / 10)%nat with
      | O => acc'
      | q => index_key_aux fuel' q acc'
      end
  end.

Definition index_key (i : nat) : string := index_key_aux (S i) i EmptyString.

(** Own property lookup in an object built by successive assignments: the
    last assignment to a key is the one that is read. *)
Fixpoint get_field (key : string) (fields : list (string * value)) : option value :=
  match fields with
  | [] => None
  | (k, v) :: rest =>
      match get_field key rest with
      | Some w => Some w
      | None => if String.eqb k key then Some v else None
      end
  end.

Inductive JsError : Type :=
| TypeError           (* property read on undefined or null, call of a non-function *)
| InvalidStateError.  (* WebSocket.send while CONNECTING *)

(** How a statement sequence ends. [OutOfModel] marks a run that leaves the
    modelled fragment of the language or of the codec (for instance a
    number that is not an integer); nothing is claimed about it. *)
Inductive Completion (A : Type) : Type :=
| Return (a : A)
| Throw (e : JsError)
| OutOfModel.
Arguments Return {A} a.
Arguments Throw {A} e.
Arguments OutOfModel {A}.

(** [v[i]] for a constant index [i]; on a string, the character at [i]
    (one byte of the model for one character, as in ASCII text). *)
Definition get_index (v : value) (i : nat) : Completion value :=
  match v with
  | VUndefined | VNull => Throw TypeError
  | VBool _ | VNum _ => Return VUndefined
  | VStr s =>
      match String.get i s with
      | Some c => Return (VStr (String c EmptyString))
      | None => Return VUndefined
      end
  | VArr items =>
      match nth_error items i with
      | Some x => Return x
      | None => Return VUndefined
      end
  | VObj fields =>
      match get_field (index_key i) fields with
      | Some x => Return x
      | None => Return VUndefined
      end
  end.

(* ===================================================================== *)
(** ** The runtime the two classes act on *)
(* ===================================================================== *)

(** The console statements of the sources, one constructor each. *)
Inductive LogEntry : Type :=
| LogSocketClosed                       (* console.log("Socket closed") *)
| LogSocketError                        (* console.log("Socket error", event) *)
| LogOpen                               (* console.log("Open", event) *)
| LogCouldNotParse (data : list Z)      (* console.error("Could not parse message", event.data, error) *)
| LogNoType (data : value)              (* console.warn("No type in message", data) *)
| LogUnknownType (type : value).        (* console.error(`Unknown message type ${type}`) *)

(** Modelled from the spec: [Game] (the world collaborator behind
    [Game.shared]) is not among the sources.  Its fields [mapSize],
    [mainPlayerId] and [spectatingId] are assigned by the connection; its
    methods [addEntity], [updateEntity] and [removeEntity] are recorded,
    with their arguments, in the order in which they are called. *)
Inductive GameEffect : Type :=
| SetMapSize (v : value)
| SetMainPlayerId (v : value)
| SetSpectatingId (v : value)
| AddEntity (e : value)
| UpdateEntity (e : value)
| RemoveEntity (id : value) (flag : bool).

Record Game : Type := mkGame {
  mapSize : value;
  mainPlayerId : value;
  spectatingId : value;
  history : list GameEffect
}.

(** The browser's WebSocket, as far as the connection uses it: its ready
    state and the frames handed to [send]. *)
Inductive ReadyState : Type := CONNECTING | OPEN | CLOSING | CLOSED.

Record WebSocket : Type := mkWebSocket {
  readyState : ReadyState;
  sendCalls : list (list Z)
}.

Record Runtime : Type := mkRuntime {
  console : list LogEntry;
  game : Game;
  socket : WebSocket
}.

(** State-passing computations with completions. *)
Definition Js (A : Type) : Type := Runtime -> Completion A * Runtime.

Definition ret {A} (a : A) : Js A := fun rt => (Return a, rt).

Definition bind {A B} (m : Js A) (k : A -> Js B) : Js B :=
  fun rt =>
    match m rt with
    | (Return a, rt') => k a rt'
    | (Throw e, rt') => (Throw e, rt')
    | (OutOfModel, rt') => (OutOfModel, rt')
    end.

Definition throw {A} (e : JsError) : Js A := fun rt => (Throw e, rt).
Definition out_of_model {A} : Js A := fun rt => (OutOfModel, rt).
Definition lift {A} (c : Completion A) : Js A := fun rt => (c, rt).

Declare Scope js_scope.
Delimit Scope js_scope with js.
Notation "x <- m ;; k" := (bind m (fun x => k))
  (at level 61, m at next level, right associativity) : js_scope.
Notation "m ;;; k" := (bind m (fun _ => k))
  (at level 61, right associativity) : js_scope.
Open Scope js_scope.

(** [array.forEach(f)]: [f] on each element, first to last; an exception
    ends the loop. *)
Fixpoint forEach {A} (f : A -> Js unit) (items : list A) : Js unit :=
  match items with
  | [] => ret tt
  | x :: rest => f x ;;; forEach f rest
  end.

Definition console_write (entry : LogEntry) : Js unit :=
  fun rt => (Return tt, mkRuntime (console rt ++ [entry]) (game rt) (socket rt)).

(** A call of a method of [Game.shared]. *)
Definition game_call (eff : GameEffect) : Js unit :=
  fun rt =>
    let g := game rt in
    (Return tt,
     mkRuntime (console rt)
               (mkGame (mapSize g) (mainPlayerId g) (spectatingId g) (history g ++ [eff]))
               (socket rt)).

(** The three assignments to fields of [Game.shared]. *)
Definition set_mapSize (v : value) : Js unit :=
  fun rt =>
    let g := game rt in
    (Return tt,
     mkRuntime (console rt)
               (mkGame v (mainPlayerId g) (spectatingId g) (history g ++ [SetMapSize v]))
               (socket rt)).

Definition set_mainPlayerId (v : value) : Js unit :=
  fun rt =>
    let g := game rt in
    (Return tt,
     mkRuntime (console rt)
               (mkGame (mapSize g) v (spectatingId g) (history g ++ [SetMainPlayerId v]))
               (socket rt)).

Definition set_spectatingId (v : value) : Js unit :=
  fun rt =>
    let g := game rt in
    (Return tt,
     mkRuntime (console rt)
               (mkGame (mapSize g) (mainPlayerId g) v (history g ++ [SetSpectatingId v]))
               (socket rt)).

(** [socket.send(binary)]: the call is recorded; the WebSocket interface
    raises InvalidStateError while the socket is still connecting and
    takes the frame without an exception in every other state. *)
Definition socket_send (binary : list Z) : Js unit :=
  fun rt =>
    let s := socket rt in
    let rt' := mkRuntime (console rt) (game rt)
                 (mkWebSocket (readyState s) (sendCalls s ++ [binary])) in
    match readyState s with
    | CONNECTING => (Throw InvalidStateError, rt')
    | _ => (Return tt, rt')
    end.

(* ===================================================================== *)
(** ** client/entities/Entity.ts *)
(* ===================================================================== *)

Inductive EntityState : Type :=
| PendingCreation      (* Waiting for `init` to be called *)
| Alive                (* `init` has been called *)
| DestroyingAnimated   (* Destroying with an animation *)
| PendingDestroy       (* Waiting to be removed *)
| Destroyed.           (* Removed *)

Definition MapIndex : Type := (Z * Z)%type.

(** Modelled from the spec: the declarations of [EntityData.ts] are not
    among the sources; the fields are the ones [initEntity] and
    [updateEntity] read ([kind], [id], [index]) and the spec lists. *)
Record EntityInitData : Type := mkInitData {
  init_id : Z;
  init_kind : Z;
  init_index : MapIndex
}.

Record EntityUpdateData : Type := mkUpdateData {
  upd_id : Z;
  upd_index : MapIndex
}.

Section EntityClass.

(** The scalar type of visual coordinates and the projection
    [Game.shared.indexToGlobalX] / [indexToGlobalY] of the world
    collaborator, which is not among the sources; [origin] is the
    coordinate of a fresh container. *)
Variable float : Type.
Variables indexToGlobalX indexToGlobalY : Z -> float.
Variable origin : float.

Record Entity : Type := mkEntity {
  state : EntityState;
  kind : option Z;             (* declared without initialiser *)
  id : Z;
  index : MapIndex;
  autoPosition : bool;
  position : float * float     (* the container's position *)
}.

(** Field initialisers and constructor. *)
Definition newEntity : Entity :=
  mkEntity PendingCreation None (-1) (0, 0) false (origin, origin).

Definition get_x (this : Entity) : Z := fst (index this).
Definition get_y (this : Entity) : Z := snd (index this).

Definition set_x (x : Z) (this : Entity) : Entity :=
  mkEntity (state this) (kind this) (id this) (x, snd (index this))
           (autoPosition this) (position this).

Definition set_y (y : Z) (this : Entity) : Entity :=
  mkEntity (state this) (kind this) (id this) (fst (index this), y)
           (autoPosition this) (position this).

Definition set_kind (k : Z) (this : Entity) : Entity :=
  mkEntity (state this) (Some k) (id this) (index this)
           (autoPosition this) (position this).

Definition set_id (i : Z) (this : Entity) : Entity :=
  mkEntity (state this) (kind this) i (index this)
           (autoPosition this) (position this).

Definition set_state (s : EntityState) (this : Entity) : Entity :=
  mkEntity s (kind this) (id this) (index this)
           (autoPosition this) (position this).

Definition position_set (px py : float) (this : Entity) : Entity :=
  mkEntity (state this) (kind this) (id this) (index this)
           (autoPosition this) (px, py).

(** A method takes the receiver and returns it as the call leaves it. *)
Definition Method : Type := Entity -> Js Entity.

(** [initEntity(data)] *)
Definition initEntity (data : EntityInitData) : Method :=
  fun this =>
    (* Set the ID and kind *)
    let this := set_kind (init_kind data) this in
    let this := set_id (init_id data) this in
    (* Set the index *)
    let this := set_x (fst (init_index data)) this in
    let this := set_y (snd (init_index data)) this in
    let this := position_set (indexToGlobalX (get_x this))
                             (indexToGlobalY (get_y this)) this in
    (* Update the state *)
    ret (set_state Alive this).

(** [moveTo(x, y)] *)
Definition moveTo (x y : Z) : Method :=
  fun this =>
    (* Update the data *)
    let this := set_x x this in
    let this := set_y y this in
    (* Move the entity if possible *)
    if autoPosition this
    then ret (position_set (indexToGlobalX x) (indexToGlobalY y) this)
    else ret this.

(** [moveToArray(index)] *)
Definition moveToArray (idx : MapIndex) : Method :=
  moveTo (fst idx) (snd idx).

(** [updateEntity(data)] *)
Definition updateEntity (data : EntityUpdateData) : Method :=
  moveToArray (upd_index data).

(** [finishDestroy()] *)
Definition finishDestroy : Method :=
  fun this =>
    let this := set_id (-1) this in
    ret (set_state PendingDestroy this).

(** What a concrete entity class may override: the destroy animation
    and the per-frame hook. *)
Class EntityImpl : Type := {
  animateDestroy : Method;
  update : float -> Method
}.

(** The methods of the abstract class itself: the animation finishes at
    once, the per-frame hook does nothing. *)
Definition BaseEntity : EntityImpl := {|
  animateDestroy := finishDestroy;
  update := fun _ this => ret this
|}.

(** [destroyEntity(animated)] *)
Definition destroyEntity {impl : EntityImpl} (animated : bool) : Method :=
  fun this =>
    if animated then
      (* Update state and animate the destroy *)
      let this := set_state DestroyingAnimated this in
      animateDestroy this
    else
      finishDestroy this.

(** A call that is visible from outside: it threw, or wrote to the
    console. *)
Definition reported {A} (rt : Runtime) (r : Completion A * Runtime) : Prop :=
  (exists e, fst r = Throw e) \/ console (snd r) <> console rt.

(** The methods that neither start nor end a life: position updates and
    the per-frame hook of the abstract class. *)
Inductive QuietCall : Type :=
| CallUpdateEntity (data : EntityUpdateData)
| CallMoveTo (x y : Z)
| CallMoveToArray (idx : MapIndex)
| CallUpdate (dt : float).

Definition quiet_call (c : QuietCall) : Method :=
  match c with
  | CallUpdateEntity data => updateEntity data
  | CallMoveTo x y => moveTo x y
  | CallMoveToArray idx => moveToArray idx
  | CallUpdate dt => @update BaseEntity dt
  end.

Fixpoint quiet_calls (cs : list QuietCall) : Method :=
  fun this =>
    match cs with
    | [] => ret this
    | c :: rest => this' <- quiet_call c this ;; quiet_calls rest this'
    end.

End EntityClass.

Arguments state {float} _.
Arguments kind {float} _.
Arguments id {float} _.
Arguments index {float} _.
Arguments autoPosition {float} _.
Arguments position {float} _.
Arguments animateDestroy {float} _.
Arguments update {float} _.
Arguments destroyEntity {float impl} animated this.
Arguments finishDestroy {float} this.
Arguments moveTo {float} indexToGlobalX indexToGlobalY x y this.
Arguments moveToArray {float} indexToGlobalX indexToGlobalY idx this.
Arguments updateEntity {float} indexToGlobalX indexToGlobalY data this.
Arguments initEntity {float} indexToGlobalX indexToGlobalY data this.
Arguments set_state {float} s this.
Arguments quiet_calls {float} indexToGlobalX indexToGlobalY cs this.
Arguments newEntity {float} origin.

(* ===================================================================== *)
(** ** The wire codec *)
(* ===================================================================== *)

Module Msgpack.

(** The connection calls [msgpack.encode] and [msgpack.decode] of the
    msgpack-lite package, which is not among the sources.  The spec
    describes the codec as a schema-less binary map/array encoding of a
    nested map/array/scalar tree; the model below is the MessagePack
    layout of the part of that tree the wire-format table needs: nil,
    booleans, integers below 2^53 in absolute value, strings, arrays and
    string-keyed maps, each written in its shortest form.  A frame is a
    list of bytes, each a [Z] in [0, 256). *)

(** [n] bytes of [z], most significant first; two's complement for a
    negative [z]. *)
Fixpoint be_bytes (n : nat) (z : Z) : list Z :=
  match n with
  | O => []
  | S n' => be_bytes n' (z / 256) ++ [z mod 256]
  end.

Definition be_value (bs : list Z) : Z :=
  fold_left (fun acc b => acc * 256 + b) bs 0.

(** Reinterpretation of an unsigned [n]-byte number as signed. *)
Definition to_signed (n : nat) (u : Z) : Z :=
  if u <? 256 ^ Z.of_nat n / 2 then u else u - 256 ^ Z.of_nat n.

Definition bytes_of_string (s : string) : list Z :=
  map (fun c => Z.of_N (N_of_ascii c)) (list_ascii_of_string s).

Definition string_of_bytes (bs : list Z) : string :=
  string_of_list_ascii (map (fun b => ascii_of_N (Z.to_N b)) bs).

(** *** Writer *)

(** The 64 bits of the double that holds the integer [z], for an
    integer of at most 53 bits other than zero: sign, biased exponent,
    fraction. *)
Definition double_bits (z : Z) : Z :=
  let a := Z.abs z in
  let e := Z.log2 a in
  ((if z <? 0 then 1 else 0) * 2 ^ 11 + (e + 1023)) * 2 ^ 52
  + (a * 2 ^ (52 - e) - 2 ^ 52).

(** A number that is its own 32-bit integer is written in the shortest
    integer form, any other number as a double. *)
Definition enc_int (z : Z) : option (list Z) :=
  if (z <? - 2 ^ 31) || (2 ^ 31 <=? z) then
    if Z.abs z <? 2 ^ 53 then Some (0xcb :: be_bytes 8 (double_bits z))  (* float 64 *)
    else None
  else if (-0x20 <=? z) && (z <=? 0x7f) then Some [Z.land z 0xff]   (* fixint *)
  else if 0 <=? z then
    if z <=? 0xff then Some (0xcc :: be_bytes 1 z)          (* uint 8 *)
    else if z <=? 0xffff then Some (0xcd :: be_bytes 2 z)   (* uint 16 *)
    else Some (0xce :: be_bytes 4 z)                        (* uint 32 *)
  else
    if -0x80 <=? z then Some (0xd0 :: be_bytes 1 z)         (* int 8 *)
    else if -0x8000 <=? z then Some (0xd1 :: be_bytes 2 z)  (* int 16 *)
    else Some (0xd2 :: be_bytes 4 z).                       (* int 32 *)

(** Header of a sized item: the short form below [fix_limit], then the
    16-bit and the 32-bit form. *)
Definition enc_len (fix_base fix_limit : Z) (tag8 : option Z) (tag16 tag32 : Z)
                   (len : Z) : option (list Z) :=
  if len <? fix_limit then Some [fix_base + len]
  else
    match tag8 with
    | Some t8 =>
        if len <=? 0xff then Some (t8 :: be_bytes 1 len)
        else if len <=? 0xffff then Some (tag16 :: be_bytes 2 len)
        else if len <? 2 ^ 32 then Some (tag32 :: be_bytes 4 len)
        else None
    | None =>
        if len <=? 0xffff then Some (tag16 :: be_bytes 2 len)
        else if len <? 2 ^ 32 then Some (tag32 :: be_bytes 4 len)
        else None
    end.

Definition str_header : Z -> option (list Z) := enc_len 0xa0 32 (Some 0xd9) 0xda 0xdb.
Definition array_header : Z -> option (list Z) := enc_len 0x90 16 None 0xdc 0xdd.
Definition map_header : Z -> option (list Z) := enc_len 0x80 16 None 0xde 0xdf.

Definition enc_str (s : string) : option (list Z) :=
  let payload := bytes_of_string s in
  match str_header (Z.of_nat (List.length payload)) with
  | Some h => Some (h ++ payload)
  | None => None
  end.

Definition enc_items (enc : value -> option (list Z)) : list value -> option (list Z) :=
  fix go (l : list value) : option (list Z) :=
    match l with
    | [] => Some []
    | x :: rest =>
        match enc x, go rest with
        | Some a, Some b => Some (a ++ b)
        | _, _ => None
        end
    end.

(** The properties of an object, each as its key followed by its
    value. *)
Definition enc_fields (enc : value -> option (list Z))
  : list (string * value) -> option (list Z) :=
  fix go (l : list (string * value)) : option (list Z) :=
    match l with
    | [] => Some []
    | (k, x) :: rest =>
        match enc_str k, enc x, go rest with
        | Some a, Some b, Some c => Some (a ++ b ++ c)
        | _, _, _ => None
        end
    end.

(** Modelled from the spec: the writer of the Wire Codec, the
    [msgpack.encode] of the msgpack-lite package, which is not among the
    sources.  It is undefined ([None]) on a value outside the modelled
    part: [undefined], an integer of 2^53 or more in absolute value, a
    string or an array of 2^32 or more items. *)
Fixpoint enc (v : value) : option (list Z) :=
  match v with
  | VUndefined => None
  | VNull => Some [0xc0]
  | VBool false => Some [0xc2]
  | VBool true => Some [0xc3]
  | VNum z => enc_int z
  | VStr s => enc_str s
  | VArr items =>
      match array_header (Z.of_nat (List.length items)), enc_items enc items with
      | Some h, Some body => Some (h ++ body)
      | _, _ => None
      end
  | VObj fields =>
      match map_header (Z.of_nat (List.length fields)), enc_fields enc fields with
      | Some h, Some body => Some (h ++ body)
      | _, _ => None
      end
  end.

(** [msgpack.encode] *)
Definition encode (v : value) : option (list Z) := enc v.

(** *** Reader *)

(** What reading gives: a value; [Malformed] for a frame that ends before
    the item does, where the package throws; [Unsupported] for a frame
    that leaves the modelled part. *)
Inductive Decoded (A : Type) : Type :=
| Got (a : A)
| Malformed
| Unsupported.
Arguments Got {A} a.
Arguments Malformed {A}.
Arguments Unsupported {A}.

Definition dbind {A B} (d : Decoded A) (k : A -> Decoded B) : Decoded B :=
  match d with
  | Got a => k a
  | Malformed => Malformed
  | Unsupported => Unsupported
  end.

(** The next [n] bytes and what follows them. *)
Definition take (n : Z) (bs : list Z) : Decoded (list Z * list Z) :=
  if Z.of_nat (List.length bs) <? n then Malformed
  else Got (firstn (Z.to_nat n) bs, skipn (Z.to_nat n) bs).

Definition dec_uint (n : nat) (bs : list Z) : Decoded (value * list Z) :=
  dbind (take (Z.of_nat n) bs) (fun '(raw, rest) => Got (VNum (be_value raw), rest)).

Definition dec_sint (n : nat) (bs : list Z) : Decoded (value * list Z) :=
  dbind (take (Z.of_nat n) bs)
        (fun '(raw, rest) => Got (VNum (to_signed n (be_value raw)), rest)).

(** The integer a double holds, if it holds one. *)
Definition double_integer (bits : Z) : option Z :=
  let hi := bits / 2 ^ 52 in
  let sign := hi / 2 ^ 11 in
  let ex := hi mod 2 ^ 11 in
  let man := bits mod 2 ^ 52 in
  let signed (a : Z) := if sign =? 0 then a else - a in
  if ex =? 0 then (if man =? 0 then Some 0 else None)       (* zero; subnormal *)
  else if ex =? 2047 then None                               (* infinity, NaN *)
  else
    let e := ex - 1023 in
    if 52 <=? e then Some (signed ((2 ^ 52 + man) * 2 ^ (e - 52)))
    else if e <? 0 then None
    else if (2 ^ 52 + man) mod 2 ^ (52 - e) =? 0
         then Some (signed ((2 ^ 52 + man) / 2 ^ (52 - e)))
         else None.

Definition dec_float64 (bs : list Z) : Decoded (value * list Z) :=
  dbind (take 8 bs) (fun '(raw, rest) =>
    match double_integer (be_value raw) with
    | Some z => Got (VNum z, rest)
    | None => Unsupported
    end).

Definition dec_str (len : Z) (bs : list Z) : Decoded (value * list Z) :=
  dbind (take len bs) (fun '(raw, rest) => Got (VStr (string_of_bytes raw), rest)).

(** A length field of [n] bytes, then the item [body] reads. *)
Definition with_len {A} (n : nat) (bs : list Z)
           (body : Z -> list Z -> Decoded A) : Decoded A :=
  dbind (take (Z.of_nat n) bs) (fun '(raw, rest) => body (be_value raw) rest).

Fixpoint dec_items (dec : list Z -> Decoded (value * list Z)) (n : nat) (bs : list Z)
  : Decoded (list value * list Z) :=
  match n with
  | O => Got ([], bs)
  | S n' =>
      dbind (dec bs) (fun '(v, rest) =>
      dbind (dec_items dec n' rest) (fun '(vs, rest') =>
      Got (v :: vs, rest')))
  end.

Fixpoint dec_fields (dec : list Z -> Decoded (value * list Z)) (n : nat) (bs : list Z)
  : Decoded (list (string * value) * list Z) :=
  match n with
  | O => Got ([], bs)
  | S n' =>
      dbind (dec bs) (fun '(k, rest) =>
      match k with
      | VStr key =>
          dbind (dec rest) (fun '(v, rest') =>
          dbind (dec_fields dec n' rest') (fun '(fs, rest'') =>
          Got ((key, v) :: fs, rest'')))
      | _ => Unsupported
      end)
  end.

(** An array or a map of [count] items cannot be read from fewer than
    [count] bytes. *)
Definition dec_array (dec : list Z -> Decoded (value * list Z)) (count : Z) (bs : list Z)
  : Decoded (value * list Z) :=
  if Z.of_nat (List.length bs) <? count then Malformed
  else dbind (dec_items dec (Z.to_nat count) bs) (fun '(vs, rest) => Got (VArr vs, rest)).

Definition dec_map (dec : list Z -> Decoded (value * list Z)) (count : Z) (bs : list Z)
  : Decoded (value * list Z) :=
  if Z.of_nat (List.length bs) <? count then Malformed
  else dbind (dec_fields dec (Z.to_nat count) bs) (fun '(fs, rest) => Got (VObj fs, rest)).

(** What the first byte of an item announces. *)
Inductive Token : Type :=
| TFixInt (z : Z)
| TFixMap (count : Z)
| TFixArray (count : Z)
| TFixStr (len : Z)
| TNil
| TFalse
| TTrue
| TFloat64
| TUint (width : nat)
| TInt (width : nat)
| TStr (width : nat)
| TArray (width : nat)
| TMap (width : nat)
| TOther.              (* bin, ext, float 32, 64-bit integers, 0xc1; not a byte *)

Definition token (tag : Z) : Token :=
  if (tag <? 0) || (0xff <? tag) then TOther
  else if tag <=? 0x7f then TFixInt tag
  else if tag <=? 0x8f then TFixMap (tag - 0x80)
  else if tag <=? 0x9f then TFixArray (tag - 0x90)
  else if tag <=? 0xbf then TFixStr (tag - 0xa0)
  else if tag =? 0xc0 then TNil
  else if tag =? 0xc2 then TFalse
  else if tag =? 0xc3 then TTrue
  else if tag =? 0xcb then TFloat64
  else if tag =? 0xcc then TUint 1
  else if tag =? 0xcd then TUint 2
  else if tag =? 0xce then TUint 4
  else if tag =? 0xd0 then TInt 1
  else if tag =? 0xd1 then TInt 2
  else if tag =? 0xd2 then TInt 4
  else if tag =? 0xd9 then TStr 1
  else if tag =? 0xda then TStr 2
  else if tag =? 0xdb then TStr 4
  else if tag =? 0xdc then TArray 2
  else if tag =? 0xdd then TArray 4
  else if tag =? 0xde then TMap 2
  else if tag =? 0xdf then TMap 4
  else if 0xe0 <=? tag then TFixInt (tag - 0x100)
  else TOther.

(** Modelled from the spec: the reader of the Wire Codec, the
    [msgpack.decode] of the msgpack-lite package, which is not among the
    sources.  One item is read from the front of [bs]; [fuel] bounds the
    nesting, and the length of the frame is enough of it. *)
Fixpoint dec (fuel : nat) (bs : list Z) : Decoded (value * list Z) :=
  match fuel with
  | O => Unsupported
  | S fuel' =>
      match bs with
      | [] => Malformed
      | tag :: rest =>
          match token tag with
          | TFixInt z => Got (VNum z, rest)
          | TFixMap count => dec_map (dec fuel') count rest
          | TFixArray count => dec_array (dec fuel') count rest
          | TFixStr len => dec_str len rest
          | TNil => Got (VNull, rest)
          | TFalse => Got (VBool false, rest)
          | TTrue => Got (VBool true, rest)
          | TFloat64 => dec_float64 rest
          | TUint width => dec_uint width rest
          | TInt width => dec_sint width rest
          | TStr width => with_len width rest dec_str
          | TArray width => with_len width rest (dec_array (dec fuel'))
          | TMap width => with_len width rest (dec_map (dec fuel'))
          | TOther => Unsupported
          end
      end
  end.

(** [msgpack.decode]: the first item of the frame. *)
Definition decode (bs : list Z) : Decoded value :=
  dbind (dec (S (List.length bs)) bs) (fun '(v, _) => Got v).

End Msgpack.

(* ===================================================================== *)
(** ** The connection *)
(* ===================================================================== *)

Module Connection.

(** [enum IncomingMessageType] and [enum OutgoingMessageType]. *)
Module IncomingMessageType.
Definition Join : Z := 0.
Definition Update : Z := 1.
End IncomingMessageType.

Module OutgoingMessageType.
Definition Join : Z := 0.
Definition Move : Z := 1.
End OutgoingMessageType.

(** [onConnectionEnded()]: every statement of the body is commented
    out. *)
Definition onConnectionEnded : Js unit := ret tt.

Definition onClose : Js unit :=
  console_write LogSocketClosed ;;; onConnectionEnded.

Definition onError : Js unit :=
  console_write LogSocketError ;;; onConnectionEnded.

Definition onOpen : Js unit := console_write LogOpen.

(** [onJoin(data)] *)
Definition onJoin (data : value) : Js unit :=
  let playerId := data in
  set_mainPlayerId playerId ;;;
  set_spectatingId playerId.

(** [v.forEach(f)]: only an array has the method. *)
Definition forEach_of (v : value) (f : value -> Js unit) : Js unit :=
  match v with
  | VArr items => forEach f items
  | _ => throw TypeError
  end.

(** [onUpdate(data)] *)
Definition onUpdate (data : value) : Js unit :=
  d0 <- lift (get_index data 0) ;;
  set_mapSize d0 ;;;
  d1 <- lift (get_index data 1) ;;
  forEach_of d1 (fun e => game_call (AddEntity e)) ;;;          (* Appeared entities *)
  d2 <- lift (get_index data 2) ;;
  forEach_of d2 (fun e => game_call (UpdateEntity e)) ;;;       (* Updated entities *)
  d3 <- lift (get_index data 3) ;;
  forEach_of d3 (fun i => game_call (RemoveEntity i false)) ;;; (* Disappeared entities *)
  d4 <- lift (get_index data 4) ;;
  forEach_of d4 (fun i => game_call (RemoveEntity i true)).     (* Destroyed entities *)

(** The test [typeof type == undefined] of [onMessage]. *)
Definition missing_type_guard (type : value) : bool :=
  eq_undefined (VStr (typeof type)).

(** The [switch (type)] of [onMessage]. *)
Definition act_on_type (type data : value) : Js unit :=
  if strict_eq_num type IncomingMessageType.Join then onJoin data
  else if strict_eq_num type IncomingMessageType.Update then onUpdate data
  else console_write (LogUnknownType type).

(** What [onMessage] does with the decoded message. *)
Definition dispatch (messageData : value) : Js unit :=
  (* Get parameters from the message *)
  type <- lift (get_index messageData 0) ;;
  data <- lift (get_index messageData 1) ;;
  (* Make sure it has the correct type *)
  if missing_type_guard type then
    console_write (LogNoType data)
  else
    (* Act on the message type *)
    act_on_type type data.

(** [onMessage(event)], on the bytes of [event.data]. *)
Definition onMessage (event_data : list Z) : Js unit :=
  match Msgpack.decode event_data with
  | Msgpack.Malformed =>
      (* catch (error) *)
      console_write (LogCouldNotParse event_data)
  | Msgpack.Unsupported => out_of_model
  | Msgpack.Got messageData => dispatch messageData
  end.

(** [sendMessage(type, data)] *)
Definition sendMessage (type : Z) (data : value) : Js unit :=
  (* Create the message *)
  let message := VArr [VNum type; data] in
  (* Send the data *)
  match Msgpack.encode message with
  | Some binary => socket_send binary
  | None => out_of_model
  end.

Definition sendJoin (username : string) : Js unit :=
  sendMessage OutgoingMessageType.Join (VStr username).

Definition sendMove (x y : Z) : Js unit :=
  sendMessage OutgoingMessageType.Move (VArr [VNum x; VNum y]).

(** The socket delivers its frames one [message] event after the other;
    the way a handler ends does not keep the next event from being
    delivered. *)
Definition deliver (frames : list (list Z)) (rt : Runtime) : Runtime :=
  fold_left (fun rt frame => snd (onMessage frame rt)) frames rt.

(** The calls of [removeEntity] in a stretch of the game's history. *)
Fixpoint removals (h : list GameEffect) : list (value * bool) :=
  match h with
  | [] => []
  | RemoveEntity i flag :: rest => (i, flag) :: removals rest
  | _ :: rest => removals rest
  end.

(** The payload of an Update envelope. *)
Definition update_payload (mapSize : value)
           (appeared updated disappearedIds destroyedIds : list value) : value :=
  VArr [mapSize; VArr appeared; VArr updated; VArr disappearedIds; VArr destroyedIds].

End Connection.

(** A page that has just created its connection. *)
Definition fresh_runtime (rs : ReadyState) : Runtime :=
  mkRuntime [] (mkGame VUndefined VUndefined VUndefined []) (mkWebSocket rs []).

(* ===================================================================== *)
(** ** The wire-format table *)
(* ===================================================================== *)

Module Wire.

(** An integer a number holds exactly: below 2^53 in absolute value. *)
Definition is_safe_integer (z : Z) : bool := Z.abs z <? 2 ^ 53.

Definition is_int (v : value) : bool :=
  match v with
  | VNum z => is_safe_integer z
  | _ => false
  end.

(** A pair of integers. *)
Definition is_index (v : value) : bool :=
  match v with
  | VArr [a; b] => is_int a && is_int b
  | _ => false
  end.

Definition has (key : string) (fields : list (string * value)) : bool :=
  match get_field key fields with
  | Some _ => true
  | None => false
  end.

(** A field of entity data: the identity, the kind, or the index. *)
Definition is_entity_field (with_kind : bool) (kv : string * value) : bool :=
  let (k, v) := kv in
  if String.eqb k "id" then is_int v
  else if String.eqb k "kind" then with_kind && is_int v
  else if String.eqb k "index" then is_index v
  else false.

(** An object with the fields [id], [kind] and [index] and no other, in
    any order. *)
Definition is_init_data (v : value) : bool :=
  match v with
  | VObj fields =>
      (List.length fields =? 3)%nat
      && forallb (is_entity_field true) fields
      && has "id" fields && has "kind" fields && has "index" fields
  | _ => false
  end.

(** An object with the fields [id] and [index] and no other, in any
    order. *)
Definition is_update_data (v : value) : bool :=
  match v with
  | VObj fields =>
      (List.length fields =? 2)%nat
      && forallb (is_entity_field false) fields
      && has "id" fields && has "index" fields
  | _ => false
  end.

Definition fits (n : nat) : bool := Z.of_nat n <? 2 ^ 32.

Definition is_array_of (p : value -> bool) (v : value) : bool :=
  match v with
  | VArr items => fits (List.length items) && forallb p items
  | _ => false
  end.

Definition is_update_payload (v : value) : bool :=
  match v with
  | VArr [m; appeared; updated; disappeared; destroyed] =>
      is_int m
      && is_array_of is_init_data appeared
      && is_array_of is_update_data updated
      && is_array_of is_int disappeared
      && is_array_of is_int destroyed
  | _ => false
  end.

Definition is_username (v : value) : bool :=
  match v with
  | VStr s => fits (String.length s)
  | _ => false
  end.

(** The four rows of the table: inbound Join and Update, outbound Join
    and Move. *)
Definition valid_envelope (e : value) : bool :=
  match e with
  | VArr [VNum type; payload] =>
      ((type =? 0) && (is_int payload || is_username payload))
      || ((type =? 1) && (is_update_payload payload || is_index payload))
  | _ => false
  end.

End Wire.

(** An entity class whose destroy animation is still running when
    [animateDestroy] returns: the override starts the animation and leaves
    the call of [finishDestroy] to its completion. *)
Definition DeferredEntity (float : Type) : EntityImpl float := {|
  animateDestroy := fun this => ret this;
  update := fun _ this => ret this
|}.

(** An override of the animation hook that returns before the animation
    has finished, that is, without having run [finishDestroy]. *)
Definition hook_defers {float : Type} (impl : EntityImpl float) : Prop :=
  forall this rt, exists this' rt',
    animateDestroy impl this rt = (Return this', rt') /\
    state this' = state this /\ id this' = id this.

(** The runtime after [added] more entries of the game's history. *)
Definition add_history (added : list GameEffect) (rt : Runtime) : Runtime :=
  mkRuntime (console rt)
            (mkGame (mapSize (game rt)) (mainPlayerId (game rt)) (spectatingId (game rt))
                    (history (game rt) ++ added))
            (socket rt).

(** The runtime after one more line on the console. *)
Definition add_console (entry : LogEntry) (rt : Runtime) : Runtime :=
  mkRuntime (console rt ++ [entry]) (game rt) (socket rt).

Definition is_no_type (entry : LogEntry) : bool :=
  match entry with
  | LogNoType _ => true
  | _ => false
  end.

Definition other_than_no_type (entry : LogEntry) : bool := negb (is_no_type entry).

(** A computation that writes to the console only entries that satisfy
    [p], after the ones already there. *)
Definition console_grows_by {A} (p : LogEntry -> bool) (m : Js A) : Prop :=
  forall rt, exists added,
    console (snd (m rt)) = console rt ++ added /\ forallb p added = true.

(** A value the writer of the codec accepts. *)
Definition encodes (v : value) : Prop := exists bs, Msgpack.enc v = Some bs.

(** The reader undoes the writer on [v], whatever follows in the frame,
    given fuel for every byte written. *)
Definition reads_back (v : value) : Prop :=
  forall bs, Msgpack.enc v = Some bs ->
  forall fuel tail, (List.length bs <= fuel)%nat ->
                    Msgpack.dec fuel (bs ++ tail) = Msgpack.Got (v, tail).

(** For concrete runs: a projection with tiles of 32 units, and an entity
    as [initEntity] leaves it on [{id: 1, kind: 0, index: [2, 3]}]. *)
Definition tile (i : Z) : Z := 32 * i.

Definition born : Entity Z := mkEntity Z Alive (Some 0) 1 (2, 3) false (64, 96).

(* ===================================================================== *)
(** ** More of the two classes *)
(* ===================================================================== *)

(** [items[k]], undefined past the end. *)
Definition element (items : list value) (k : nat) : value :=
  match nth_error items k with
  | Some x => x
  | None => VUndefined
  end.

Definition is_array (v : value) : bool :=
  match v with
  | VArr _ => true
  | _ => false
  end.

(** A frame on which [msgpack.decode] throws. *)
Definition is_malformed (frame : list Z) : bool :=
  match Msgpack.decode frame with
  | Msgpack.Malformed => true
  | _ => false
  end.

(** A computation whose completion, console output and effect on the game
    are the same whatever the runtime it starts from, and which leaves the
    socket alone. *)
Definition uniform {A} (m : Js A) : Prop :=
  exists (c : Completion A) (added : list LogEntry) (g : Game -> Game),
    forall rt, m rt = (c, mkRuntime (console rt ++ added) (g (game rt)) (socket rt)).

(** A computation that leaves the observation [f] of the runtime as it
    was, however it ends. *)
Definition preserves {A B} (f : Runtime -> B) (m : Js A) : Prop :=
  forall rt, f (snd (m rt)) = f rt.

(** What [onUpdate] cannot change: the two player ids, the console and
    the socket. *)
Definition beside_the_map (rt : Runtime) : value * value * list LogEntry * WebSocket :=
  (mainPlayerId (game rt), spectatingId (game rt), console rt, socket rt).

Section EntityCalls.

Variable float : Type.
Variables indexToGlobalX indexToGlobalY : Z -> float.

(** The public methods and the two index setters of an entity of the
    abstract class, as calls. *)
Inductive EntityCall : Type :=
| DoInitEntity (data : EntityInitData)
| DoUpdateEntity (data : EntityUpdateData)
| DoDestroyEntity (animated : bool)
| DoAnimateDestroy
| DoFinishDestroy
| DoUpdate (dt : float)
| DoMoveTo (x y : Z)
| DoMoveToArray (idx : MapIndex)
| DoSetX (x : Z)
| DoSetY (y : Z).

Definition do_call (c : EntityCall) : Method float :=
  match c with
  | DoInitEntity data => initEntity indexToGlobalX indexToGlobalY data
  | DoUpdateEntity data => updateEntity indexToGlobalX indexToGlobalY data
  | DoDestroyEntity animated => destroyEntity (impl := BaseEntity float) animated
  | DoAnimateDestroy => animateDestroy (BaseEntity float)
  | DoFinishDestroy => finishDestroy
  | DoUpdate dt => update (BaseEntity float) dt
  | DoMoveTo x y => moveTo indexToGlobalX indexToGlobalY x y
  | DoMoveToArray idx => moveToArray indexToGlobalX indexToGlobalY idx
  | DoSetX x => fun this => ret (set_x float x this)
  | DoSetY y => fun this => ret (set_y float y this)
  end.

Fixpoint do_calls (cs : list EntityCall) : Method float :=
  fun this =>
    match cs with
    | [] => ret this
    | c :: rest => this' <- do_call c this ;; do_calls rest this'
    end.

(** The data of the last [initEntity] among the calls, if there is one. *)
Fixpoint last_init (cs : list EntityCall) : option EntityInitData :=
  match cs with
  | [] => None
  | c :: rest =>
      match last_init rest with
      | Some data => Some data
      | None =>
          match c with
          | DoInitEntity data => Some data
          | _ => None
          end
      end
  end.

Definition is_setter (c : EntityCall) : bool :=
  match c with
  | DoSetX _ | DoSetY _ => true
  | _ => false
  end.

(** Where the projection puts a grid index. *)
Definition projected (idx : MapIndex) : float * float :=
  (indexToGlobalX (fst idx), indexToGlobalY (snd idx)).

(** The lifecycle states the methods of the abstract class produce, with
    the identity they carry. *)
Definition reachable (e : Entity float) : Prop :=
  (state e = PendingCreation /\ id e = -1)
  \/ state e = Alive
  \/ (state e = PendingDestroy /\ id e = -1).

(** The visual position is the projection of the grid index. *)
Definition placed (e : Entity float) : Prop :=
  position e = projected (index e).

End EntityCalls.

Arguments DoInitEntity {float} data.
Arguments DoUpdateEntity {float} data.
Arguments DoDestroyEntity {float} animated.
Arguments DoAnimateDestroy {float}.
Arguments DoFinishDestroy {float}.
Arguments DoUpdate {float} dt.
Arguments DoMoveTo {float} x y.
Arguments DoMoveToArray {float} idx.
Arguments DoSetX {float} x.
Arguments DoSetY {float} y.
Arguments do_call {float} indexToGlobalX indexToGlobalY c this.
Arguments do_calls {float} indexToGlobalX indexToGlobalY cs this.
Arguments last_init {float} cs.
Arguments is_setter {float} c.
Arguments projected {float} indexToGlobalX indexToGlobalY idx.
Arguments reachable {float} e.
Arguments placed {float} indexToGlobalX indexToGlobalY e.

(* ===================================================================== *)
(** * Properties *)
(* ===================================================================== *)

(** ** Entity lifecycle *)

Section EntityFacts.

Variable float : Type.
Variables toX toY : Z -> float.   (* indexToGlobalX, indexToGlobalY *)

Lemma not_reported_same {A} (rt : Runtime) (a : A) :
  ~ reported rt (Return a, rt).
Proof.
  intros [[e He] | Hc]; simpl in *; [discriminate | congruence].
Qed.

Lemma initEntity_run (data : EntityInitData) (this : Entity float) (rt : Runtime) :
  initEntity toX toY data this rt =
  (Return (mkEntity float Alive (Some (init_kind data)) (init_id data)
                    (init_index data) (autoPosition this)
                    (toX (fst (init_index data)),
                     toY (snd (init_index data)))),
   rt).
Proof.
  destruct data as [i k [x y]]. reflexivity.
Qed.

Lemma finishDestroy_run (this : Entity float) (rt : Runtime) :
  finishDestroy this rt =
  (Return (mkEntity float PendingDestroy (kind this) (-1) (index this)
                    (autoPosition this) (position this)), rt).
Proof. reflexivity. Qed.

Lemma moveTo_run (x y : Z) (this : Entity float) (rt : Runtime) :
  moveTo toX toY x y this rt =
  (Return (mkEntity float (state this) (kind this) (id this) (x, y)
                    (autoPosition this)
                    (if autoPosition this
                     then (toX x, toY y)
                     else position this)), rt).
Proof.
  destruct this as [s k i ix ap pos]. unfold moveTo. simpl.
  destruct ap; reflexivity.
Qed.

Lemma quiet_call_keeps (c : QuietCall float) (this : Entity float) (rt : Runtime) :
  exists this',
    quiet_call float toX toY c this rt = (Return this', rt) /\
    state this' = state this /\ id this' = id this.
Proof.
  destruct c as [data | x y | idx | dt]; simpl;
    try (unfold updateEntity); try (unfold moveToArray);
    try rewrite moveTo_run; eexists; split; try reflexivity; simpl; auto.
Qed.

Lemma quiet_calls_keep (cs : list (QuietCall float)) :
  forall (this : Entity float) (rt : Runtime),
  exists this',
    quiet_calls toX toY cs this rt = (Return this', rt) /\
    state this' = state this /\ id this' = id this.
Proof.
  induction cs as [| c cs IH]; intros this rt; simpl.
  - exists this. repeat split.
  - destruct (quiet_call_keeps c this rt) as (this1 & Hrun & Hst & Hid).
    destruct (IH this1 rt) as (this2 & Hrun2 & Hst2 & Hid2).
    exists this2. unfold bind. rewrite Hrun. rewrite Hrun2.
    repeat split; congruence.
Qed.

(** C3. An immediate destroy of an Alive entity ends in PendingDestroy
    with identity -1 at once.  An animated destroy first sets
    DestroyingAnimated and enters the animation hook in that state; with
    a hook that returns before the animation has finished, the entity is
    in DestroyingAnimated when [destroyEntity] returns, position updates
    and frame ticks keep it there, and the call of [finishDestroy] moves
    it to PendingDestroy with identity -1. *)
Theorem destroyEntity_from_Alive (impl : EntityImpl float) (this : Entity float) (rt : Runtime) :
  state this = Alive ->
  (exists this',
      destroyEntity (impl := impl) false this rt = (Return this', rt) /\
      state this' = PendingDestroy /\ id this' = -1)
  /\ destroyEntity (impl := impl) true this rt
     = animateDestroy impl (set_state DestroyingAnimated this) rt
  /\ state (set_state DestroyingAnimated this) = DestroyingAnimated
  /\ (hook_defers impl ->
      exists this1 rt1,
        destroyEntity (impl := impl) true this rt = (Return this1, rt1) /\
        state this1 = DestroyingAnimated /\
        forall cs rt2, exists this2,
          quiet_calls toX toY cs this1 rt2 = (Return this2, rt2) /\
          state this2 = DestroyingAnimated /\
          exists this3,
            finishDestroy this2 rt2 = (Return this3, rt2) /\
            state this3 = PendingDestroy /\ id this3 = -1).
Proof.
  intros Halive. split; [| split; [| split]].
  - eexists. split; [apply finishDestroy_run |]. split; reflexivity.
  - reflexivity.
  - reflexivity.
  - intros Hdefer.
    destruct (Hdefer (set_state DestroyingAnimated this) rt)
      as (this1 & rt1 & Hrun & Hst & _).
    exists this1, rt1. split; [exact Hrun |]. split; [exact Hst |].
    intros cs rt2.
    destruct (quiet_calls_keep cs this1 rt2) as (this2 & Hq & Hst2 & _).
    exists this2. split; [exact Hq |]. split; [rewrite Hst2; exact Hst |].
    eexists. split; [apply finishDestroy_run |]. split; reflexivity.
Qed.

(** C5 (as the code has it). [initEntity] checks nothing: on an entity
    in any lifecycle state, initialised before or not, it returns
    normally, writes nothing to the console, and leaves the entity Alive
    with the kind, identity, index and projected position of the new
    data. *)
Theorem initEntity_unguarded (data : EntityInitData) (this : Entity float) (rt : Runtime) :
  exists this',
    initEntity toX toY data this rt = (Return this', rt) /\
    ~ reported rt (initEntity toX toY data this rt) /\
    state this' = Alive /\
    kind this' = Some (init_kind data) /\
    id this' = init_id data /\
    index this' = init_index data /\
    position this' = (toX (fst (init_index data)),
                      toY (snd (init_index data))).
Proof.
  eexists. split; [apply initEntity_run |].
  split; [rewrite initEntity_run; apply not_reported_same |].
  repeat split.
Qed.

(** C8. Two identical updates in a row leave the entity, its grid index
    and its visual position included, as the first one left it; this
    holds in every lifecycle state, Alive among them. *)
Theorem updateEntity_idempotent (data : EntityUpdateData) (this : Entity float) (rt : Runtime) :
  (this1 <- updateEntity toX toY data this ;; updateEntity toX toY data this1) rt
  = updateEntity toX toY data this rt.
Proof.
  unfold bind, updateEntity, moveToArray.
  rewrite !moveTo_run. simpl.
  destruct (autoPosition this); reflexivity.
Qed.

(** C10. With the animation hook of the abstract class, [destroyEntity]
    does the same in every lifecycle state and for both values of
    [animated]: it returns normally, reports nothing, sets the identity
    to -1 and the state to PendingDestroy, and touches no other field. *)
Theorem destroyEntity_unguarded (animated : bool) (this : Entity float) (rt : Runtime) :
  destroyEntity (impl := BaseEntity float) animated this rt
  = (Return (mkEntity float PendingDestroy (kind this) (-1) (index this)
                      (autoPosition this) (position this)), rt)
  /\ ~ reported rt (destroyEntity (impl := BaseEntity float) animated this rt).
Proof.
  assert (H : destroyEntity (impl := BaseEntity float) animated this rt
              = (Return (mkEntity float PendingDestroy (kind this) (-1) (index this)
                                  (autoPosition this) (position this)), rt))
    by (destruct animated; reflexivity).
  split; [exact H | rewrite H; apply not_reported_same].
Qed.

End EntityFacts.

(** ** Inbound dispatch and outbound senders *)

Section ConnectionFacts.

Import Connection.

Lemma add_history_nil (rt : Runtime) : add_history [] rt = rt.
Proof.
  destruct rt as [c [m p s h] so]. unfold add_history. simpl.
  now rewrite app_nil_r.
Qed.

Lemma add_history_app (l1 l2 : list GameEffect) (rt : Runtime) :
  add_history l2 (add_history l1 rt) = add_history (l1 ++ l2) rt.
Proof.
  unfold add_history. simpl. now rewrite app_assoc.
Qed.

Lemma forEach_game_call (F : value -> GameEffect) (items : list value) :
  forall rt,
    forEach (fun e => game_call (F e)) items rt
    = (Return tt, add_history (map F items) rt).
Proof.
  induction items as [| x rest IH]; intros rt; simpl.
  - now rewrite add_history_nil.
  - unfold bind. simpl. rewrite IH.
    fold (add_history [F x] rt). now rewrite add_history_app.
Qed.

(** The whole effect of [onUpdate] on a payload of five elements of
    which the last four are arrays. *)
Lemma onUpdate_run (m : value) (app upd dis des : list value) (rt : Runtime) :
  onUpdate (update_payload m app upd dis des) rt
  = (Return tt,
     mkRuntime (console rt)
       (mkGame m (mainPlayerId (game rt)) (spectatingId (game rt))
          (history (game rt)
           ++ SetMapSize m
           :: map AddEntity app
           ++ map UpdateEntity upd
           ++ map (fun i => RemoveEntity i false) dis
           ++ map (fun i => RemoveEntity i true) des))
       (socket rt)).
Proof.
  unfold onUpdate, update_payload, bind, lift, forEach_of. simpl.
  rewrite !forEach_game_call. unfold add_history. simpl.
  repeat rewrite <- app_assoc. reflexivity.
Qed.

Lemma removals_app (h1 h2 : list GameEffect) :
  removals (h1 ++ h2) = removals h1 ++ removals h2.
Proof.
  induction h1 as [| e h1 IH]; simpl; [reflexivity |].
  destruct e; simpl; rewrite IH; reflexivity.
Qed.

Lemma removals_map_remove (flag : bool) (ids : list value) :
  removals (map (fun i => RemoveEntity i flag) ids) = map (fun i => (i, flag)) ids.
Proof.
  induction ids as [| i ids IH]; simpl; [reflexivity | now rewrite IH].
Qed.

Lemma removals_map_add (items : list value) : removals (map AddEntity items) = [].
Proof. induction items; simpl; auto. Qed.

Lemma removals_map_update (items : list value) : removals (map UpdateEntity items) = [].
Proof. induction items; simpl; auto. Qed.

(** C1 (as the code has it). The removals an Update envelope causes are,
    in this order, one call [removeEntity(id, false)] for each id of the
    disappeared list (fourth element) and one call
    [removeEntity(id, true)] for each id of the destroyed list (fifth
    element). *)
Theorem onUpdate_removal_flags (m : value) (app upd dis des : list value) (rt : Runtime) :
  exists added,
    history (game (snd (onUpdate (update_payload m app upd dis des) rt)))
    = history (game rt) ++ added /\
    removals added
    = map (fun i => (i, false)) dis ++ map (fun i => (i, true)) des.
Proof.
  rewrite onUpdate_run. simpl. eexists. split; [reflexivity |].
  simpl. rewrite !removals_app, !removals_map_remove.
  now rewrite removals_map_add, removals_map_update.
Qed.

(** C6. An Update envelope is applied in a fixed order: the map size is
    replaced first, then [addEntity] is called for each appeared element,
    then [updateEntity] for each updated element, then [removeEntity]
    for each disappeared id, then [removeEntity] for each destroyed id;
    the handler returns normally and the map size is the new one. *)
Theorem onUpdate_order (m : value) (app upd dis des : list value) (rt : Runtime) :
  let r := onUpdate (update_payload m app upd dis des) rt in
  fst r = Return tt /\
  mapSize (game (snd r)) = m /\
  history (game (snd r))
  = history (game rt)
    ++ [SetMapSize m]
    ++ map AddEntity app
    ++ map UpdateEntity upd
    ++ map (fun i => RemoveEntity i false) dis
    ++ map (fun i => RemoveEntity i true) des.
Proof.
  simpl. rewrite onUpdate_run. simpl. repeat split.
Qed.

(** C4 (as the code has it). [sendMessage], and with it [sendJoin] and
    [sendMove], does not look at the state of the socket: whatever the
    ready state, the encoded envelope is handed to [socket.send], once,
    and the call ends the way [socket.send] ends. *)
Theorem sendMessage_always_sends (type : Z) (data : value) (binary : list Z) (rt : Runtime) :
  Msgpack.encode (VArr [VNum type; data]) = Some binary ->
  sendMessage type data rt = socket_send binary rt /\
  sendCalls (socket (snd (sendMessage type data rt)))
  = sendCalls (socket rt) ++ [binary].
Proof.
  intros Henc. unfold sendMessage. rewrite Henc. split; [reflexivity |].
  unfold socket_send. destruct (readyState (socket rt)); reflexivity.
Qed.

(** C7. A frame the decoder rejects is logged and dropped: the handler
    returns normally, the game and the socket (its ready state included)
    are as before, and the frames that follow are processed as they would
    have been without it. *)
Theorem onMessage_malformed (frame : list Z) (rt : Runtime) :
  Msgpack.decode frame = Msgpack.Malformed ->
  onMessage frame rt = (Return tt, add_console (LogCouldNotParse frame) rt) /\
  game (snd (onMessage frame rt)) = game rt /\
  socket (snd (onMessage frame rt)) = socket rt /\
  forall later,
    deliver (frame :: later) rt
    = deliver later (add_console (LogCouldNotParse frame) rt).
Proof.
  intros Hbad.
  assert (Hrun : onMessage frame rt
                 = (Return tt, add_console (LogCouldNotParse frame) rt))
    by (unfold onMessage; rewrite Hbad; reflexivity).
  split; [exact Hrun |]. rewrite Hrun. simpl. repeat split.
  intros later. unfold deliver. simpl. now rewrite Hrun.
Qed.

(** *** What a handler can write to the console *)

Section ConsoleGrowth.

Variable p : LogEntry -> bool.

Lemma grows_silent {A} (m : Js A) :
  (forall rt, console (snd (m rt)) = console rt) -> console_grows_by p m.
Proof.
  intros H rt. exists []. rewrite H, app_nil_r. split; reflexivity.
Qed.

Lemma grows_bind {A B} (m : Js A) (k : A -> Js B) :
  console_grows_by p m -> (forall a, console_grows_by p (k a)) ->
  console_grows_by p (bind m k).
Proof.
  intros Hm Hk rt. destruct (Hm rt) as (l1 & E1 & P1). unfold bind.
  destruct (m rt) as [[a | e |] rt1]; simpl in *.
  - destruct (Hk a rt1) as (l2 & E2 & P2). exists (l1 ++ l2).
    rewrite E2, E1, app_assoc, forallb_app, P1, P2. split; reflexivity.
  - exists l1. split; assumption.
  - exists l1. split; assumption.
Qed.

Lemma grows_lift {A} (c : Completion A) : console_grows_by p (lift c).
Proof. apply grows_silent. reflexivity. Qed.

Lemma grows_game_call (eff : GameEffect) : console_grows_by p (game_call eff).
Proof. apply grows_silent. reflexivity. Qed.

Lemma grows_write (entry : LogEntry) :
  p entry = true -> console_grows_by p (console_write entry).
Proof.
  intros H rt. exists [entry]. simpl. rewrite H. split; reflexivity.
Qed.

Lemma grows_forEach {A} (f : A -> Js unit) (items : list A) :
  (forall x, console_grows_by p (f x)) -> console_grows_by p (forEach f items).
Proof.
  intros Hf. induction items as [| x rest IH]; simpl.
  - apply grows_silent. reflexivity.
  - apply grows_bind; [apply Hf | intros _; exact IH].
Qed.

Lemma grows_forEach_of (v : value) (f : value -> Js unit) :
  (forall x, console_grows_by p (f x)) -> console_grows_by p (forEach_of v f).
Proof.
  intros Hf. destruct v; simpl;
    try (apply grows_silent; reflexivity).
  apply grows_forEach, Hf.
Qed.

Lemma grows_onUpdate (data : value) : console_grows_by p (onUpdate data).
Proof.
  unfold onUpdate.
  repeat (first
    [ apply grows_bind; [| intros ?]
    | apply grows_lift
    | apply grows_forEach_of; intros ?
    | apply grows_game_call
    | apply grows_silent; reflexivity ]).
Qed.

Lemma grows_onJoin (data : value) : console_grows_by p (onJoin data).
Proof.
  unfold onJoin. apply grows_bind; [| intros ?]; apply grows_silent; reflexivity.
Qed.

End ConsoleGrowth.

Lemma grows_onMessage (frame : list Z) :
  console_grows_by other_than_no_type (onMessage frame).
Proof.
  unfold onMessage. destruct (Msgpack.decode frame) as [messageData | |].
  - unfold dispatch.
    apply grows_bind; [apply grows_lift | intros type].
    apply grows_bind; [apply grows_lift | intros data].
    change (missing_type_guard type) with false. cbv iota.
    unfold act_on_type.
    destruct (strict_eq_num type IncomingMessageType.Join); [apply grows_onJoin |].
    destruct (strict_eq_num type IncomingMessageType.Update); [apply grows_onUpdate |].
    apply grows_write. reflexivity.
  - apply grows_write. reflexivity.
  - apply grows_silent. reflexivity.
Qed.

(** C9. The test [typeof type == undefined] is false for every value, so
    the decoded message always reaches the switch on its type; whatever
    the frame, [onMessage] adds no "No type in message" line to the
    console; and a message whose type is missing or undefined falls to
    the default branch, which logs the unknown type. *)
Theorem missing_type_guard_dead :
  (forall type, missing_type_guard type = false)
  /\ (forall messageData,
        dispatch messageData
        = (type <- lift (get_index messageData 0) ;;
           data <- lift (get_index messageData 1) ;;
           act_on_type type data))
  /\ (forall frame, console_grows_by other_than_no_type (onMessage frame))
  /\ (forall rt,
        dispatch (VArr []) rt
        = (Return tt, add_console (LogUnknownType VUndefined) rt))
  /\ (forall rest rt,
        dispatch (VArr (VUndefined :: rest)) rt
        = (Return tt, add_console (LogUnknownType VUndefined) rt)).
Proof.
  split; [reflexivity |]. split; [reflexivity |].
  split; [exact grows_onMessage |].
  split; [reflexivity |].
  intros rest rt. unfold dispatch, bind, lift. simpl.
  destruct rest; reflexivity.
Qed.

End ConnectionFacts.

(** ** The wire codec *)

Section CodecFacts.

Import Msgpack.

(** *** Numbers of fixed width *)

Lemma be_value_snoc (l : list Z) (b : Z) :
  be_value (l ++ [b]) = be_value l * 256 + b.
Proof. unfold be_value. now rewrite fold_left_app. Qed.

Lemma be_value_bytes (n : nat) :
  forall z, be_value (be_bytes n z) = z mod 256 ^ Z.of_nat n.
Proof.
  induction n as [| n IH]; intros z.
  - simpl. now rewrite Z.mod_1_r.
  - cbn [be_bytes]. rewrite be_value_snoc, IH.
    rewrite Nat2Z.inj_succ, Z.pow_succ_r by lia.
    rewrite (Z.rem_mul_r z 256 (256 ^ Z.of_nat n)) by lia. ring.
Qed.

Lemma length_be_bytes (n : nat) : forall z, List.length (be_bytes n z) = n.
Proof.
  induction n as [| n IH]; intros z; simpl; [reflexivity |].
  rewrite length_app, IH. simpl. lia.
Qed.

Lemma take_app (n : nat) (raw tail : list Z) :
  List.length raw = n -> take (Z.of_nat n) (raw ++ tail) = Got (raw, tail).
Proof.
  intros <-. unfold take. rewrite length_app, Nat2Z.id.
  destruct (Z.ltb_spec (Z.of_nat (List.length raw + List.length tail))
                       (Z.of_nat (List.length raw))); [lia |].
  rewrite firstn_app, skipn_app, Nat.sub_diag, firstn_all, skipn_all.
  simpl. now rewrite app_nil_r.
Qed.

Lemma with_len_be {A} (w : nat) (len : Z) (tail : list Z)
      (body : Z -> list Z -> Decoded A) :
  0 <= len < 256 ^ Z.of_nat w ->
  with_len w (be_bytes w len ++ tail) body = body len tail.
Proof.
  intros H. unfold with_len.
  rewrite (take_app w) by apply length_be_bytes. simpl.
  now rewrite be_value_bytes, Z.mod_small.
Qed.

Lemma string_of_bytes_of_string (s : string) :
  string_of_bytes (bytes_of_string s) = s.
Proof.
  unfold string_of_bytes, bytes_of_string. rewrite map_map.
  rewrite (map_ext _ (fun c => c)), map_id.
  - apply string_of_list_ascii_of_string.
  - intros c. now rewrite N2Z.id, ascii_N_embedding.
Qed.

(** *** The first byte *)

Ltac compare_tags :=
  repeat match goal with
  | |- context [Z.ltb ?a ?b] => destruct (Z.ltb_spec a b); try lia
  | |- context [Z.leb ?a ?b] => destruct (Z.leb_spec a b); try lia
  | |- context [Z.eqb ?a ?b] => destruct (Z.eqb_spec a b); try lia
  end.

Lemma token_fixint_pos (z : Z) : 0 <= z <= 0x7f -> token z = TFixInt z.
Proof. intros H. unfold token. compare_tags. reflexivity. Qed.

Lemma token_fixint_neg (z : Z) : -0x20 <= z < 0 -> token (z + 0x100) = TFixInt z.
Proof. intros H. unfold token. compare_tags. cbn [orb]. f_equal. lia. Qed.

Lemma token_fixmap (n : Z) : 0 <= n < 16 -> token (0x80 + n) = TFixMap n.
Proof. intros H. unfold token. compare_tags. cbn [orb]. f_equal. lia. Qed.

Lemma token_fixarray (n : Z) : 0 <= n < 16 -> token (0x90 + n) = TFixArray n.
Proof. intros H. unfold token. compare_tags. cbn [orb]. f_equal. lia. Qed.

Lemma token_fixstr (n : Z) : 0 <= n < 32 -> token (0xa0 + n) = TFixStr n.
Proof. intros H. unfold token. compare_tags. cbn [orb]. f_equal. lia. Qed.

Lemma dec_cons (fuel : nat) (tag : Z) (rest : list Z) :
  dec (S fuel) (tag :: rest)
  = match token tag with
    | TFixInt z => Got (VNum z, rest)
    | TFixMap count => dec_map (dec fuel) count rest
    | TFixArray count => dec_array (dec fuel) count rest
    | TFixStr len => dec_str len rest
    | TNil => Got (VNull, rest)
    | TFalse => Got (VBool false, rest)
    | TTrue => Got (VBool true, rest)
    | TFloat64 => dec_float64 rest
    | TUint width => dec_uint width rest
    | TInt width => dec_sint width rest
    | TStr width => with_len width rest dec_str
    | TArray width => with_len width rest (dec_array (dec fuel))
    | TMap width => with_len width rest (dec_map (dec fuel))
    | TOther => Unsupported
    end.
Proof. reflexivity. Qed.

Ltac head_out := rewrite <- app_comm_cons; rewrite ?app_nil_l.

Lemma Some_eq {A} (a b : A) : Some a = Some b -> a = b.
Proof. congruence. Qed.

Ltac width_bound :=
  try match goal with
  | |- context [256 ^ Z.of_nat ?w] =>
      let v := eval vm_compute in (256 ^ Z.of_nat w) in
      change (256 ^ Z.of_nat w) with v
  end;
  change (2 ^ 31) with 2147483648 in *;
  change (2 ^ 32) with 4294967296 in *;
  lia.

(* [injection] would unfold the byte lists it meets. *)
Ltac from_some H := apply Some_eq in H; subst.

(** *** Integers *)

Lemma dec_uint_be (w : nat) (z : Z) (tail : list Z) :
  0 <= z < 256 ^ Z.of_nat w ->
  dec_uint w (be_bytes w z ++ tail) = Got (VNum z, tail).
Proof.
  intros H. unfold dec_uint.
  rewrite (take_app w) by apply length_be_bytes. simpl.
  now rewrite be_value_bytes, Z.mod_small.
Qed.

Lemma dec_sint_be (w : nat) (z : Z) (tail : list Z) :
  - (256 ^ Z.of_nat w) <= 2 * z -> z < 0 ->
  dec_sint w (be_bytes w z ++ tail) = Got (VNum z, tail).
Proof.
  intros Hlo Hneg. unfold dec_sint.
  rewrite (take_app w) by apply length_be_bytes. simpl.
  rewrite be_value_bytes. unfold to_signed.
  set (m := 256 ^ Z.of_nat w) in *.
  assert (Hm : 0 < m) by (apply Z.pow_pos_nonneg; lia).
  clearbody m.
  rewrite <- (Z.mod_add z 1 m) by lia.
  rewrite Z.mod_small by lia.
  destruct (Z.ltb_spec (z + 1 * m) (m / 2)) as [Hlt | Hge].
  - exfalso. assert (2 * (m / 2) <= m) by (apply Z.mul_div_le; lia). lia.
  - replace (z + 1 * m - m) with z by lia. reflexivity.
Qed.

(** *** Integers held by doubles *)

Ltac powers :=
  change (2 ^ 11) with 2048 in *;
  change (2 ^ 31) with 2147483648 in *;
  change (2 ^ 52) with 4503599627370496 in *;
  change (2 ^ 53) with 9007199254740992 in *.

Lemma split_hi_lo (hi lo m : Z) :
  0 <= lo < m -> (hi * m + lo) / m = hi /\ (hi * m + lo) mod m = lo.
Proof.
  intros H. split.
  - rewrite Z.div_add_l by lia. rewrite Z.div_small by lia. lia.
  - rewrite Z.add_comm, Z.mod_add by lia. now apply Z.mod_small.
Qed.

Lemma double_integer_bits (z : Z) :
  2 ^ 31 <= Z.abs z < 2 ^ 53 ->
  0 <= double_bits z < 256 ^ Z.of_nat 8 /\
  double_integer (double_bits z) = Some z.
Proof.
  intros [Hlo Hhi]. unfold double_bits, double_integer. cbv zeta.
  remember (Z.abs z) as a eqn:Ea.
  assert (Ha : 0 < a) by (powers; lia).
  remember (Z.log2 a) as e eqn:Ee.
  assert (He : 31 <= e <= 52).
  { subst e. split.
    - now apply Z.log2_le_pow2.
    - apply Z.lt_succ_r. change (Z.succ 52) with 53. now apply Z.log2_lt_pow2. }
  destruct (Z.log2_spec a Ha) as [He1 He2]. rewrite <- Ee in He1, He2.
  rewrite Z.pow_succ_r in He2 by lia.
  assert (HEp : 2 ^ e * 2 ^ (52 - e) = 2 ^ 52).
  { rewrite <- Z.pow_add_r by lia. f_equal. lia. }
  assert (Hp : 0 < 2 ^ (52 - e)) by (apply Z.pow_pos_nonneg; lia).
  remember (2 ^ (52 - e)) as p eqn:Ep.
  remember (2 ^ e) as E eqn:EE.
  remember (a * p - 2 ^ 52) as man eqn:Eman.
  assert (Hman : 0 <= man < 2 ^ 52) by (powers; nia).
  remember (if z <? 0 then 1 else 0) as s eqn:Es.
  assert (Hs : (s = 0 /\ 0 <= z) \/ (s = 1 /\ z < 0))
    by (subst s; destruct (Z.ltb_spec z 0); auto).
  assert (Hex : 0 <= e + 1023 < 2 ^ 11) by (powers; lia).
  destruct (split_hi_lo (s * 2 ^ 11 + (e + 1023)) man (2 ^ 52) Hman) as [Hhi52 Hlo52].
  destruct (split_hi_lo s (e + 1023) (2 ^ 11) Hex) as [Hsign Hexp].
  split.
  - change (256 ^ Z.of_nat 8) with (2 ^ 11 * 2 ^ 53). powers. nia.
  - rewrite Hhi52, Hlo52, Hsign, Hexp.
    destruct (Z.eqb_spec (e + 1023) 0); [lia |].
    destruct (Z.eqb_spec (e + 1023) 2047); [lia |].
    replace (e + 1023 - 1023) with e by lia.
    assert (Hap : 2 ^ 52 + man = a * p) by lia.
    assert (Hsigned : (if s =? 0 then a else - a) = z).
    { destruct Hs as [[-> Hz] | [-> Hz]]; simpl; lia. }
    destruct (Z.leb_spec 52 e).
    + assert (Hp1 : p = 1)
        by (rewrite Ep; replace (52 - e) with 0 by lia; reflexivity).
      replace (e - 52) with 0 by lia.
      change (2 ^ 0) with 1. rewrite Hap, Hp1, !Z.mul_1_r.
      now rewrite Hsigned.
    + destruct (Z.ltb_spec e 0); [lia |].
      rewrite <- Ep, Hap, Z.mod_mul by lia.
      change (0 =? 0) with true. cbv match.
      rewrite Z.div_mul by lia. now rewrite Hsigned.
Qed.

Lemma dec_float64_be (z : Z) (tail : list Z) :
  2 ^ 31 <= Z.abs z < 2 ^ 53 ->
  dec_float64 (be_bytes 8 (double_bits z) ++ tail) = Got (VNum z, tail).
Proof.
  intros H. destruct (double_integer_bits z H) as [Hrange Hback].
  unfold dec_float64. change 8 with (Z.of_nat 8).
  rewrite (take_app 8) by apply length_be_bytes. cbn [dbind].
  rewrite be_value_bytes, Z.mod_small by exact Hrange.
  now rewrite Hback.
Qed.

Lemma dec_enc_int (z : Z) (bs : list Z) :
  enc_int z = Some bs ->
  forall fuel tail, dec (S fuel) (bs ++ tail) = Got (VNum z, tail).
Proof.
  unfold enc_int. intros H fuel tail.
  destruct ((z <? - 2 ^ 31) || (2 ^ 31 <=? z)) eqn:Hwide.
  { destruct (Z.ltb_spec (Z.abs z) (2 ^ 53)); [| discriminate].
    from_some H. head_out. rewrite dec_cons.
    change (token 0xcb) with TFloat64. cbv match.
    apply dec_float64_be. split; [| assumption].
    apply orb_true_iff in Hwide as [Hw | Hw];
      [apply Z.ltb_lt in Hw | apply Z.leb_le in Hw]; powers; lia. }
  apply orb_false_iff in Hwide as [H0 H1].
  apply Z.ltb_ge in H0. apply Z.leb_gt in H1.
  destruct (Z.leb_spec (-0x20) z); cbn [orb andb] in H.
  - destruct (Z.leb_spec z 0x7f); cbn [orb andb] in H.
    + (* fixint *)
      from_some H. change 0xff with (Z.ones 8).
      rewrite Z.land_ones by lia. head_out. rewrite dec_cons.
      destruct (Z.le_gt_cases 0 z).
      * rewrite Z.mod_small by lia. now rewrite token_fixint_pos by lia.
      * rewrite <- (Z.mod_add z 1) by lia. rewrite Z.mod_small by lia.
        change (1 * 2 ^ 8) with 0x100. now rewrite token_fixint_neg by lia.
    + destruct (Z.leb_spec 0 z); [| lia].
      destruct (Z.leb_spec z 0xff); [| destruct (Z.leb_spec z 0xffff)];
        from_some H; head_out; rewrite dec_cons;
        [ change (token 0xcc) with (TUint 1)
        | change (token 0xcd) with (TUint 2)
        | change (token 0xce) with (TUint 4) ];
        cbv match; apply dec_uint_be; width_bound.
  - destruct (Z.leb_spec 0 z); [lia |].
    destruct (Z.leb_spec (-0x80) z); [| destruct (Z.leb_spec (-0x8000) z)];
      from_some H; head_out; rewrite dec_cons;
      [ change (token 0xd0) with (TInt 1)
      | change (token 0xd1) with (TInt 2)
      | change (token 0xd2) with (TInt 4) ];
      cbv match; apply dec_sint_be; width_bound.
Qed.

(** *** Headers of sized items *)

Lemma enc_len_cases (base limit : Z) (t8 : option Z) (t16 t32 len : Z) (h : list Z) :
  enc_len base limit t8 t16 t32 len = Some h ->
  (len < limit /\ h = [base + len])
  \/ (exists t, t8 = Some t /\ len <= 0xff /\ h = t :: be_bytes 1 len)
  \/ (len <= 0xffff /\ h = t16 :: be_bytes 2 len)
  \/ (len < 2 ^ 32 /\ h = t32 :: be_bytes 4 len).
Proof.
  unfold enc_len. intros H.
  destruct (Z.ltb_spec len limit).
  - left. from_some H. auto.
  - right. destruct t8 as [t |].
    + destruct (Z.leb_spec len 0xff).
      * left. exists t. from_some H. auto.
      * right. destruct (Z.leb_spec len 0xffff).
        -- left. from_some H. auto.
        -- right. destruct (Z.ltb_spec len (2 ^ 32)); [| discriminate].
           from_some H. auto.
    + right. destruct (Z.leb_spec len 0xffff).
      * left. from_some H. auto.
      * right. destruct (Z.ltb_spec len (2 ^ 32)); [| discriminate].
        from_some H. auto.
Qed.

Lemma enc_len_nonempty (base limit : Z) (t8 : option Z) (t16 t32 len : Z) (h : list Z) :
  enc_len base limit t8 t16 t32 len = Some h -> (1 <= List.length h)%nat.
Proof.
  intros H. apply enc_len_cases in H.
  destruct H as [[_ ->] | [(t & _ & _ & ->) | [[_ ->] | [_ ->]]]]; simpl; lia.
Qed.

Lemma dec_str_header (len : Z) (h : list Z) :
  0 <= len -> str_header len = Some h ->
  forall fuel tail, dec (S fuel) (h ++ tail) = dec_str len tail.
Proof.
  intros Hpos H fuel tail. apply enc_len_cases in H.
  destruct H as [[Hl ->] | [(t & Ht & Hl & ->) | [[Hl ->] | [Hl ->]]]];
    head_out; rewrite dec_cons.
  - now rewrite token_fixstr by lia.
  - injection Ht as <-. change (token 0xd9) with (TStr 1). cbv match.
    apply with_len_be. width_bound.
  - change (token 0xda) with (TStr 2). cbv match. apply with_len_be. width_bound.
  - change (token 0xdb) with (TStr 4). cbv match. apply with_len_be. width_bound.
Qed.

Lemma dec_array_header (count : Z) (h : list Z) :
  0 <= count -> array_header count = Some h ->
  forall fuel tail, dec (S fuel) (h ++ tail) = dec_array (dec fuel) count tail.
Proof.
  intros Hpos H fuel tail. apply enc_len_cases in H.
  destruct H as [[Hl ->] | [(t & Ht & Hl & ->) | [[Hl ->] | [Hl ->]]]];
    head_out; try rewrite dec_cons.
  - now rewrite token_fixarray by lia.
  - discriminate.
  - change (token 0xdc) with (TArray 2). cbv match. apply with_len_be. width_bound.
  - change (token 0xdd) with (TArray 4). cbv match. apply with_len_be. width_bound.
Qed.

Lemma dec_map_header (count : Z) (h : list Z) :
  0 <= count -> map_header count = Some h ->
  forall fuel tail, dec (S fuel) (h ++ tail) = dec_map (dec fuel) count tail.
Proof.
  intros Hpos H fuel tail. apply enc_len_cases in H.
  destruct H as [[Hl ->] | [(t & Ht & Hl & ->) | [[Hl ->] | [Hl ->]]]];
    head_out; try rewrite dec_cons.
  - now rewrite token_fixmap by lia.
  - discriminate.
  - change (token 0xde) with (TMap 2). cbv match. apply with_len_be. width_bound.
  - change (token 0xdf) with (TMap 4). cbv match. apply with_len_be. width_bound.
Qed.

(** *** Strings *)

Lemma dec_enc_str (s : string) (bs : list Z) :
  enc_str s = Some bs ->
  forall fuel tail, dec (S fuel) (bs ++ tail) = Got (VStr s, tail).
Proof.
  unfold enc_str. cbv zeta. intros H fuel tail.
  destruct (str_header (Z.of_nat (List.length (bytes_of_string s)))) as [h |] eqn:Hh;
    [| discriminate].
  from_some H. rewrite <- app_assoc.
  rewrite (dec_str_header _ _ (Nat2Z.is_nonneg _) Hh).
  unfold dec_str. rewrite take_app by reflexivity. simpl.
  now rewrite string_of_bytes_of_string.
Qed.

(** *** Arrays and objects *)

Lemma enc_VArr (items : list value) :
  enc (VArr items)
  = match array_header (Z.of_nat (List.length items)), enc_items enc items with
    | Some h, Some body => Some (h ++ body)
    | _, _ => None
    end.
Proof. reflexivity. Qed.

Lemma enc_VObj (fields : list (string * value)) :
  enc (VObj fields)
  = match map_header (Z.of_nat (List.length fields)), enc_fields enc fields with
    | Some h, Some body => Some (h ++ body)
    | _, _ => None
    end.
Proof. reflexivity. Qed.

Lemma enc_items_cons (x : value) (rest : list value) :
  enc_items enc (x :: rest)
  = match enc x, enc_items enc rest with
    | Some a, Some b => Some (a ++ b)
    | _, _ => None
    end.
Proof. reflexivity. Qed.

Lemma enc_fields_cons (k : string) (x : value) (rest : list (string * value)) :
  enc_fields enc ((k, x) :: rest)
  = match enc_str k, enc x, enc_fields enc rest with
    | Some a, Some b, Some c => Some (a ++ b ++ c)
    | _, _, _ => None
    end.
Proof. reflexivity. Qed.

(** Every item takes at least one byte. *)
Lemma enc_nonempty (v : value) (bs : list Z) :
  enc v = Some bs -> (1 <= List.length bs)%nat.
Proof.
  intros H.
  destruct v as [| | b | z | s | items | fields].
  - discriminate.
  - from_some H. simpl. lia.
  - destruct b; from_some H; simpl; lia.
  - pose proof (dec_enc_int z bs H 0%nat []) as D.
    destruct bs; [discriminate D | simpl; lia].
  - pose proof (dec_enc_str s bs H 0%nat []) as D.
    destruct bs; [discriminate D | simpl; lia].
  - rewrite enc_VArr in H.
    destruct (array_header _) as [h |] eqn:Hh; [| discriminate].
    destruct (enc_items enc items) as [body |]; [| discriminate].
    from_some H. apply enc_len_nonempty in Hh. rewrite length_app. lia.
  - rewrite enc_VObj in H.
    destruct (map_header _) as [h |] eqn:Hh; [| discriminate].
    destruct (enc_fields enc fields) as [body |]; [| discriminate].
    from_some H. apply enc_len_nonempty in Hh. rewrite length_app. lia.
Qed.

Lemma enc_items_length (items : list value) :
  forall body, enc_items enc items = Some body ->
               (List.length items <= List.length body)%nat.
Proof.
  induction items as [| x rest IH]; intros body H.
  - simpl. lia.
  - rewrite enc_items_cons in H.
    destruct (enc x) as [a |] eqn:Ha; [| discriminate].
    destruct (enc_items enc rest) as [b |] eqn:Hb; [| discriminate].
    from_some H. apply enc_nonempty in Ha. specialize (IH b eq_refl).
    rewrite length_app. simpl. lia.
Qed.

Lemma enc_fields_length (fields : list (string * value)) :
  forall body, enc_fields enc fields = Some body ->
               (List.length fields <= List.length body)%nat.
Proof.
  induction fields as [| [k x] rest IH]; intros body H.
  - simpl. lia.
  - rewrite enc_fields_cons in H.
    destruct (enc_str k) as [a |] eqn:Ha; [| discriminate].
    destruct (enc x) as [b |] eqn:Hb; [| discriminate].
    destruct (enc_fields enc rest) as [c |] eqn:Hc; [| discriminate].
    from_some H. apply enc_nonempty in Hb. specialize (IH c eq_refl).
    rewrite !length_app. simpl. lia.
Qed.

Lemma dec_enc_items (fuel : nat) (items : list value) :
  Forall reads_back items ->
  forall body, enc_items enc items = Some body ->
  (List.length body <= fuel)%nat ->
  forall tail,
    dec_items (dec fuel) (List.length items) (body ++ tail) = Got (items, tail).
Proof.
  induction 1 as [| x rest Hx Hrest IH]; intros body H Hfuel tail.
  - from_some H. reflexivity.
  - rewrite enc_items_cons in H.
    destruct (enc x) as [a |] eqn:Ha; [| discriminate].
    destruct (enc_items enc rest) as [b |] eqn:Hb; [| discriminate].
    from_some H. rewrite length_app in Hfuel.
    cbn [List.length dec_items]. rewrite <- app_assoc.
    rewrite (Hx a Ha) by lia. cbn [dbind].
    rewrite (IH b eq_refl) by lia. reflexivity.
Qed.

Lemma dec_enc_fields (fuel : nat) (fields : list (string * value)) :
  Forall (fun kv => reads_back (snd kv)) fields ->
  forall body, enc_fields enc fields = Some body ->
  (List.length body <= fuel)%nat ->
  forall tail,
    dec_fields (dec fuel) (List.length fields) (body ++ tail) = Got (fields, tail).
Proof.
  induction 1 as [| [k x] rest Hx Hrest IH]; intros body H Hfuel tail.
  - from_some H. reflexivity.
  - rewrite enc_fields_cons in H.
    destruct (enc_str k) as [a |] eqn:Ha; [| discriminate].
    destruct (enc x) as [b |] eqn:Hb; [| discriminate].
    destruct (enc_fields enc rest) as [c |] eqn:Hc; [| discriminate].
    from_some H. rewrite !length_app in Hfuel.
    pose proof (enc_nonempty (VStr k) a Ha) as Hlen.
    destruct fuel as [| fuel']; [lia |].
    cbn [List.length dec_fields]. rewrite <- !app_assoc.
    rewrite (dec_enc_str k a Ha). cbn [dbind].
    rewrite (Hx b Hb) by lia. cbn [dbind].
    rewrite (IH c eq_refl) by lia. reflexivity.
Qed.

Lemma dec_enc (v : value) : reads_back v.
Proof.
  induction v as [| | b | z | s | items IH | fields IH] using value_ind;
    intros bs H fuel tail Hfuel;
    pose proof (enc_nonempty _ _ H) as Hlen;
    (destruct fuel as [| fuel']; [lia |]).
  - discriminate.
  - from_some H. reflexivity.
  - destruct b; from_some H; reflexivity.
  - now apply dec_enc_int.
  - now apply dec_enc_str.
  - rewrite enc_VArr in H.
    destruct (array_header _) as [h |] eqn:Hh; [| discriminate].
    destruct (enc_items enc items) as [body |] eqn:Hb; [| discriminate].
    from_some H. rewrite <- app_assoc.
    rewrite (dec_array_header _ _ (Nat2Z.is_nonneg _) Hh).
    pose proof (enc_len_nonempty _ _ _ _ _ _ _ Hh) as Hh1.
    pose proof (enc_items_length _ _ Hb) as Hb1.
    rewrite length_app in Hfuel.
    unfold dec_array. rewrite length_app.
    destruct (Z.ltb_spec (Z.of_nat (List.length body + List.length tail))
                         (Z.of_nat (List.length items))); [lia |].
    rewrite Nat2Z.id, (dec_enc_items fuel' items IH body Hb) by lia.
    reflexivity.
  - rewrite enc_VObj in H.
    destruct (map_header _) as [h |] eqn:Hh; [| discriminate].
    destruct (enc_fields enc fields) as [body |] eqn:Hb; [| discriminate].
    from_some H. rewrite <- app_assoc.
    rewrite (dec_map_header _ _ (Nat2Z.is_nonneg _) Hh).
    pose proof (enc_len_nonempty _ _ _ _ _ _ _ Hh) as Hh1.
    pose proof (enc_fields_length _ _ Hb) as Hb1.
    rewrite length_app in Hfuel.
    unfold dec_map. rewrite length_app.
    destruct (Z.ltb_spec (Z.of_nat (List.length body + List.length tail))
                         (Z.of_nat (List.length fields))); [lia |].
    rewrite Nat2Z.id, (dec_enc_fields fuel' fields IH body Hb) by lia.
    reflexivity.
Qed.

(** Whatever the writer accepts, the reader gives back. *)
Lemma decode_encode (v : value) (bs : list Z) :
  encode v = Some bs -> decode bs = Got v.
Proof.
  intros H. unfold decode.
  rewrite <- (app_nil_r bs) at 2.
  rewrite (dec_enc v bs H) by lia. reflexivity.
Qed.

(** *** What the writer accepts *)

Ltac split_ifs :=
  repeat match goal with
  | |- context [if ?c then _ else _] => destruct c eqn:?
  end.

Lemma enc_int_some (z : Z) :
  Wire.is_safe_integer z = true -> exists bs, enc_int z = Some bs.
Proof.
  unfold Wire.is_safe_integer, enc_int. intros H. rewrite H.
  split_ifs; eauto.
Qed.

Lemma enc_len_some (base limit : Z) (t8 : option Z) (t16 t32 len : Z) :
  len < 2 ^ 32 -> exists h, enc_len base limit t8 t16 t32 len = Some h.
Proof.
  intros H. unfold enc_len.
  destruct (Z.ltb_spec len (2 ^ 32)); [| lia].
  destruct t8; split_ifs; eauto.
Qed.

Lemma length_bytes_of_string (s : string) :
  List.length (bytes_of_string s) = String.length s.
Proof.
  unfold bytes_of_string. rewrite length_map.
  induction s as [| c s IH]; simpl; [reflexivity | now rewrite IH].
Qed.

Lemma enc_str_some (s : string) :
  Wire.fits (String.length s) = true -> exists bs, enc_str s = Some bs.
Proof.
  unfold Wire.fits. intros H. apply Z.ltb_lt in H.
  unfold enc_str. cbv zeta. rewrite length_bytes_of_string.
  destruct (enc_len_some 0xa0 32 (Some 0xd9) 0xda 0xdb _ H) as [h Hh].
  unfold str_header. rewrite Hh. eauto.
Qed.

Lemma enc_items_some (items : list value) :
  Forall encodes items -> exists body, enc_items enc items = Some body.
Proof.
  induction 1 as [| x rest [a Ha] _ [b Hb]].
  - exists []. reflexivity.
  - exists (a ++ b). now rewrite enc_items_cons, Ha, Hb.
Qed.

Lemma enc_fields_some (fields : list (string * value)) :
  Forall (fun kv => (exists a, enc_str (fst kv) = Some a) /\ encodes (snd kv)) fields ->
  exists body, enc_fields enc fields = Some body.
Proof.
  induction 1 as [| [k x] rest [[a Ha] [b Hb]] _ [c Hc]].
  - exists []. reflexivity.
  - exists (a ++ b ++ c). simpl in Ha, Hb.
    now rewrite enc_fields_cons, Ha, Hb, Hc.
Qed.

Lemma encodes_array (items : list value) :
  Wire.fits (List.length items) = true -> Forall encodes items ->
  encodes (VArr items).
Proof.
  unfold Wire.fits. intros Hfit Hall. apply Z.ltb_lt in Hfit.
  destruct (enc_len_some 0x90 16 None 0xdc 0xdd _ Hfit) as [h Hh].
  destruct (enc_items_some items Hall) as [body Hb].
  exists (h ++ body). rewrite enc_VArr. unfold array_header.
  now rewrite Hh, Hb.
Qed.

Lemma encodes_object (fields : list (string * value)) :
  Wire.fits (List.length fields) = true ->
  Forall (fun kv => (exists a, enc_str (fst kv) = Some a) /\ encodes (snd kv)) fields ->
  encodes (VObj fields).
Proof.
  unfold Wire.fits. intros Hfit Hall. apply Z.ltb_lt in Hfit.
  destruct (enc_len_some 0x80 16 None 0xde 0xdf _ Hfit) as [h Hh].
  destruct (enc_fields_some fields Hall) as [body Hb].
  exists (h ++ body). rewrite enc_VObj. unfold map_header.
  now rewrite Hh, Hb.
Qed.

Lemma encodes_int (v : value) : Wire.is_int v = true -> encodes v.
Proof.
  destruct v; try discriminate. simpl. intros H.
  apply enc_int_some in H. exact H.
Qed.

Ltac one_item items x :=
  destruct items as [| x items]; [discriminate |].

Lemma encodes_index (v : value) : Wire.is_index v = true -> encodes v.
Proof.
  destruct v as [| | | | | items |]; try discriminate.
  one_item items a. one_item items b. destruct items; [| discriminate].
  simpl. intros H. apply andb_true_iff in H as [Ha Hb].
  apply encodes_array; [reflexivity |].
  repeat constructor; now apply encodes_int.
Qed.

Lemma encodes_entity_field (with_kind : bool) (kv : string * value) :
  Wire.is_entity_field with_kind kv = true ->
  (exists a, enc_str (fst kv) = Some a) /\ encodes (snd kv).
Proof.
  destruct kv as [k v]. unfold Wire.is_entity_field. simpl.
  destruct (String.eqb_spec k "id") as [-> |].
  { intros H. split; [eexists; reflexivity | now apply encodes_int]. }
  destruct (String.eqb_spec k "kind") as [-> |].
  { intros H. apply andb_true_iff in H as [_ H].
    split; [eexists; reflexivity | now apply encodes_int]. }
  destruct (String.eqb_spec k "index") as [-> |]; [| discriminate].
  intros H. split; [eexists; reflexivity | now apply encodes_index].
Qed.

Lemma encodes_entity_fields (with_kind : bool) (n : nat) (fields : list (string * value)) :
  (n < 16)%nat ->
  (List.length fields =? n)%nat && forallb (Wire.is_entity_field with_kind) fields = true ->
  encodes (VObj fields).
Proof.
  intros Hn H. apply andb_true_iff in H as [Hlen Hall].
  apply Nat.eqb_eq in Hlen.
  apply encodes_object.
  - unfold Wire.fits. apply Z.ltb_lt. change (2 ^ 32) with 4294967296. lia.
  - apply Forall_forall. intros kv Hin.
    apply (encodes_entity_field with_kind).
    rewrite forallb_forall in Hall. now apply Hall.
Qed.

Lemma encodes_init_data (v : value) : Wire.is_init_data v = true -> encodes v.
Proof.
  destruct v as [| | | | | | fields]; try discriminate. simpl. intros H.
  do 3 (apply andb_true_iff in H as [H _]).
  apply (encodes_entity_fields true 3); [lia | exact H].
Qed.

Lemma encodes_update_data (v : value) : Wire.is_update_data v = true -> encodes v.
Proof.
  destruct v as [| | | | | | fields]; try discriminate. simpl. intros H.
  do 2 (apply andb_true_iff in H as [H _]).
  apply (encodes_entity_fields false 2); [lia | exact H].
Qed.

Lemma encodes_array_of (p : value -> bool) (v : value) :
  (forall x, p x = true -> encodes x) ->
  Wire.is_array_of p v = true -> encodes v.
Proof.
  intros Hp. destruct v as [| | | | | items |]; try discriminate.
  simpl. intros H. apply andb_true_iff in H as [Hfit Hall].
  apply encodes_array; [exact Hfit |].
  apply Forall_forall. intros x Hin. apply Hp.
  rewrite forallb_forall in Hall. now apply Hall.
Qed.

Lemma encodes_update_payload (v : value) :
  Wire.is_update_payload v = true -> encodes v.
Proof.
  destruct v as [| | | | | items |]; try discriminate.
  one_item items m. one_item items appeared. one_item items updated.
  one_item items disappeared. one_item items destroyed.
  destruct items; [| discriminate].
  simpl. intros H.
  apply andb_true_iff in H as [H Hdes]. apply andb_true_iff in H as [H Hdis].
  apply andb_true_iff in H as [H Hupd]. apply andb_true_iff in H as [Hm Happ].
  apply encodes_array; [reflexivity |].
  repeat constructor.
  - now apply encodes_int.
  - exact (encodes_array_of _ _ encodes_init_data Happ).
  - exact (encodes_array_of _ _ encodes_update_data Hupd).
  - exact (encodes_array_of _ _ encodes_int Hdis).
  - exact (encodes_array_of _ _ encodes_int Hdes).
Qed.

Lemma encodes_username (v : value) : Wire.is_username v = true -> encodes v.
Proof.
  destruct v; try discriminate. simpl. intros H.
  apply enc_str_some in H. exact H.
Qed.

Lemma encodes_envelope (e : value) : Wire.valid_envelope e = true -> encodes e.
Proof.
  destruct e as [| | | | | items |]; try discriminate.
  destruct items as [| t [| payload [| extra rest]]];
    try discriminate; try (destruct t; discriminate).
  destruct t as [| | | type | | |]; try discriminate.
  simpl. intros H.
  assert (Ht : encodes (VNum type)).
  { apply encodes_int. simpl. unfold Wire.is_safe_integer.
    apply orb_true_iff in H as [H | H]; apply andb_true_iff in H as [H _];
      apply Z.eqb_eq in H; subst; reflexivity. }
  assert (Hp : encodes payload).
  { apply orb_true_iff in H as [H | H]; apply andb_true_iff in H as [_ H];
      apply orb_true_iff in H as [H | H].
    - now apply encodes_int.
    - now apply encodes_username.
    - now apply encodes_update_payload.
    - now apply encodes_index. }
  apply encodes_array; [reflexivity |]. repeat constructor; assumption.
Qed.

(** C2. Every envelope of the wire-format table is accepted by the
    writer, and the reader gives it back from the bytes written. *)
Theorem decode_encode_envelope (e : value) :
  Wire.valid_envelope e = true ->
  exists bytes, encode e = Some bytes /\ decode bytes = Got e.
Proof.
  intros H. destruct (encodes_envelope e H) as [bytes Hb].
  exists bytes. split; [exact Hb | now apply decode_encode].
Qed.

End CodecFacts.

(** ** Concrete runs *)

(** [sendMove(4, 9)] hands the socket the bytes of [[1, [4, 9]]]. *)
Example sendMove_4_9 :
  Connection.sendMove 4 9 (fresh_runtime OPEN)
  = (Return tt,
     mkRuntime [] (game (fresh_runtime OPEN)) (mkWebSocket OPEN [[0x92; 1; 0x92; 4; 9]]))
  /\ Msgpack.decode [0x92; 1; 0x92; 4; 9] = Msgpack.Got (VArr [VNum 1; VArr [VNum 4; VNum 9]]).
Proof. split; reflexivity. Qed.

(** A Join envelope sets the main player and the spectated player. *)
Example onMessage_join :
  Connection.onMessage [0x92; 0; 7] (fresh_runtime OPEN)
  = (Return tt,
     mkRuntime []
       (mkGame VUndefined (VNum 7) (VNum 7) [SetMainPlayerId (VNum 7); SetSpectatingId (VNum 7)])
       (mkWebSocket OPEN [])).
Proof. reflexivity. Qed.

(** A frame that decodes to [null] makes the handler throw at
    [messageData[0]], outside the [try] block. *)
Example onMessage_null :
  Connection.onMessage [0xc0] (fresh_runtime OPEN) = (Throw TypeError, fresh_runtime OPEN).
Proof. reflexivity. Qed.

(** C1, counterexample. On the Update payload [[50, [], [], [7], [9]]]
    the disappeared id 7 is removed with the flag false and the destroyed
    id 9 with the flag true: no animated removal of 7, no non-animated
    removal of 9. *)
Lemma onUpdate_removal_flags_counterexample :
  let rt' := snd (Connection.onUpdate
                    (Connection.update_payload (VNum 50) [] [] [VNum 7] [VNum 9])
                    (fresh_runtime OPEN)) in
  history (game rt')
  = [SetMapSize (VNum 50); RemoveEntity (VNum 7) false; RemoveEntity (VNum 9) true]
  /\ ~ In (RemoveEntity (VNum 7) true) (history (game rt'))
  /\ ~ In (RemoveEntity (VNum 9) false) (history (game rt')).
Proof.
  simpl. split; [reflexivity |].
  split; intros H; repeat (destruct H as [H | H]; [discriminate H |]); exact H.
Qed.

(** C2, witness: the Update envelope
    [[1, [50, [{id: 1, kind: 0, index: [2, 3]}], [], [], []]]]. *)
Lemma decode_encode_envelope_witness :
  let e := VArr [VNum 1;
                 VArr [VNum 50;
                       VArr [VObj [("id"%string, VNum 1); ("kind"%string, VNum 0);
                                   ("index"%string, VArr [VNum 2; VNum 3])]];
                       VArr []; VArr []; VArr []]] in
  Wire.valid_envelope e = true
  /\ exists bytes, Msgpack.encode e = Some bytes /\ Msgpack.decode bytes = Msgpack.Got e.
Proof.
  intros e. split; [reflexivity |].
  apply (decode_encode_envelope e). reflexivity.
Defined.

(** C3, witness: an Alive entity of a class whose animation is still
    running when the hook returns. *)
Lemma destroyEntity_from_Alive_witness :
  state born = Alive
  /\ exists this1 rt1,
       destroyEntity (impl := DeferredEntity Z) true born (fresh_runtime OPEN)
       = (Return this1, rt1)
       /\ state this1 = DestroyingAnimated.
Proof.
  split; [reflexivity |].
  destruct (destroyEntity_from_Alive Z tile tile (DeferredEntity Z) born
              (fresh_runtime OPEN) eq_refl) as (_ & _ & _ & Hstay).
  destruct Hstay as (this1 & rt1 & Hrun & Hst & _).
  - intros this rt. exists this, rt. repeat split.
  - exists this1, rt1. split; assumption.
Defined.

(** C4, counterexample. With the socket CLOSED, [sendJoin("bob")]
    reaches [socket.send] with the encoded envelope; with the socket
    still CONNECTING it does so too, and the call raises. *)
Lemma sendJoin_not_open_counterexample :
  Connection.sendJoin "bob" (fresh_runtime CLOSED)
  = (Return tt,
     mkRuntime [] (game (fresh_runtime CLOSED))
               (mkWebSocket CLOSED [[0x92; 0; 0xa3; 98; 111; 98]]))
  /\ Connection.sendJoin "bob" (fresh_runtime CONNECTING)
     = (Throw InvalidStateError,
        mkRuntime [] (game (fresh_runtime CONNECTING))
                  (mkWebSocket CONNECTING [[0x92; 0; 0xa3; 98; 111; 98]])).
Proof. split; reflexivity. Qed.

(** C4, witness: [sendJoin("bob")] on a closed socket. *)
Lemma sendMessage_always_sends_witness :
  Msgpack.encode (VArr [VNum 0; VStr "bob"]) = Some [0x92; 0; 0xa3; 98; 111; 98]
  /\ sendCalls (socket (snd (Connection.sendJoin "bob" (fresh_runtime CLOSED))))
     = [] ++ [[0x92; 0; 0xa3; 98; 111; 98]].
Proof.
  split; [reflexivity |].
  apply (sendMessage_always_sends 0 (VStr "bob") [0x92; 0; 0xa3; 98; 111; 98]
           (fresh_runtime CLOSED)).
  reflexivity.
Defined.

(** C5, counterexample. A second [initEntity] on an entity that is
    already Alive returns normally, writes nothing to the console, and
    overwrites identity, kind, index and position. *)
Lemma initEntity_twice_counterexample :
  let again := mkInitData 2 5 (7, 8) in
  initEntity tile tile (mkInitData 1 0 (2, 3)) (newEntity 0) (fresh_runtime OPEN)
  = (Return born, fresh_runtime OPEN)
  /\ initEntity tile tile again born (fresh_runtime OPEN)
     = (Return (mkEntity Z Alive (Some 5) 2 (7, 8) false (224, 256)), fresh_runtime OPEN)
  /\ ~ reported (fresh_runtime OPEN) (initEntity tile tile again born (fresh_runtime OPEN)).
Proof.
  simpl. split; [reflexivity |]. split; [reflexivity |].
  intros [[e He] | Hc]; [discriminate He | apply Hc; reflexivity].
Qed.

(** C7, witness: an array of two items cut after the first. *)
Lemma onMessage_malformed_witness :
  Msgpack.decode [0x92; 1] = Msgpack.Malformed
  /\ Connection.onMessage [0x92; 1] (fresh_runtime OPEN)
     = (Return tt, add_console (LogCouldNotParse [0x92; 1]) (fresh_runtime OPEN)).
Proof.
  split; [reflexivity |].
  apply (onMessage_malformed [0x92; 1] (fresh_runtime OPEN)). reflexivity.
Defined.

(** ** More on inbound dispatch *)

Section DispatchFacts.

Import Connection.

Lemma get_index_array (items : list value) (k : nat) :
  get_index (VArr items) k = Return (element items k).
Proof.
  unfold get_index, element. destruct (nth_error items k); reflexivity.
Qed.

Lemma onMessage_decoded (frame : list Z) (messageData : value) (rt : Runtime) :
  Msgpack.decode frame = Msgpack.Got messageData ->
  onMessage frame rt = dispatch messageData rt.
Proof. intros H. unfold onMessage. now rewrite H. Qed.

(** X1. A frame whose decoded message has the number 0 as its first
    element is a Join: both the main player and the spectated player
    become the second element (undefined when there is none), the handler
    returns normally, and nothing else changes: not the map size, not the
    console, not the socket, and no entity method is called. *)
Theorem onMessage_join_sets_players
        (frame : list Z) (messageData data : value) (rt : Runtime) :
  Msgpack.decode frame = Msgpack.Got messageData ->
  get_index messageData 0 = Return (VNum 0) ->
  get_index messageData 1 = Return data ->
  onMessage frame rt
  = (Return tt,
     mkRuntime (console rt)
       (mkGame (mapSize (game rt)) data data
               (history (game rt) ++ [SetMainPlayerId data; SetSpectatingId data]))
       (socket rt)).
Proof.
  intros Hdec H0 H1. rewrite (onMessage_decoded _ _ _ Hdec).
  unfold dispatch, bind, lift. rewrite H0, H1. simpl.
  unfold act_on_type, onJoin, bind, set_mainPlayerId, set_spectatingId. simpl.
  now rewrite <- app_assoc.
Qed.

(** X2. A frame whose decoded message has a first element other than the
    numbers 0 and 1 (a string, a boolean, null, an array, another number,
    or nothing at all) is logged as an unknown message type and otherwise
    ignored: the handler returns normally, game and socket are
    untouched. *)
Theorem onMessage_unknown_type
        (frame : list Z) (messageData type data : value) (rt : Runtime) :
  Msgpack.decode frame = Msgpack.Got messageData ->
  get_index messageData 0 = Return type ->
  get_index messageData 1 = Return data ->
  strict_eq_num type 0 = false ->
  strict_eq_num type 1 = false ->
  onMessage frame rt = (Return tt, add_console (LogUnknownType type) rt).
Proof.
  intros Hdec H0 H1 Hj Hu. rewrite (onMessage_decoded _ _ _ Hdec).
  unfold dispatch, bind, lift. rewrite H0, H1.
  change (missing_type_guard type) with false. cbv match.
  unfold act_on_type, IncomingMessageType.Join, IncomingMessageType.Update.
  now rewrite Hj, Hu.
Qed.

(** X3. A frame that decodes to null is not caught by the [try] block:
    the read of [messageData[0]] throws a TypeError out of the handler,
    with nothing logged and nothing changed, and the frames that follow
    are processed as if it had not arrived. *)
Theorem onMessage_null_throws (frame : list Z) (messageData : value) (rt : Runtime) :
  Msgpack.decode frame = Msgpack.Got messageData ->
  eq_undefined messageData = true ->
  onMessage frame rt = (Throw TypeError, rt)
  /\ forall later, deliver (frame :: later) rt = deliver later rt.
Proof.
  intros Hdec Hnull.
  assert (Hrun : onMessage frame rt = (Throw TypeError, rt)).
  { rewrite (onMessage_decoded _ _ _ Hdec).
    destruct messageData; try discriminate; reflexivity. }
  split; [exact Hrun |].
  intros later. unfold deliver. simpl. now rewrite Hrun.
Qed.

(** X4. [onUpdate] is not atomic.  When the fourth element of the payload
    (the disappeared ids) is missing or is not an array, the map size has
    been replaced and every appeared and updated element has been handed
    to the game by the time the TypeError is thrown; no removal is
    made. *)
Theorem onUpdate_stops_half_way
        (items appeared updated : list value) (rt : Runtime) :
  element items 1 = VArr appeared ->
  element items 2 = VArr updated ->
  is_array (element items 3) = false ->
  onUpdate (VArr items) rt
  = (Throw TypeError,
     mkRuntime (console rt)
       (mkGame (element items 0) (mainPlayerId (game rt)) (spectatingId (game rt))
          (history (game rt)
           ++ SetMapSize (element items 0)
           :: map AddEntity appeared ++ map UpdateEntity updated))
       (socket rt)).
Proof.
  intros H1 H2 H3. unfold onUpdate, bind, lift.
  rewrite !get_index_array, H1, H2. simpl.
  rewrite !forEach_game_call. simpl.
  destruct (element items 3) eqn:E3; try discriminate H3;
    unfold add_history; simpl; rewrite <- !app_assoc; reflexivity.
Qed.

(** X5. [onUpdate] reads the first five elements of its payload and
    [onMessage] the first two of the message: whatever follows them is
    ignored. *)
Theorem trailing_elements_ignored
        (m type payload : value) (appeared updated disappeared destroyed extra : list value)
        (rt : Runtime) :
  onUpdate (VArr (m :: VArr appeared :: VArr updated :: VArr disappeared
                    :: VArr destroyed :: extra)) rt
  = onUpdate (update_payload m appeared updated disappeared destroyed) rt
  /\ dispatch (VArr (type :: payload :: extra)) rt = dispatch (VArr [type; payload]) rt.
Proof.
  split; [| reflexivity].
  rewrite onUpdate_run. unfold onUpdate, bind, lift, forEach_of. simpl.
  rewrite !forEach_game_call. unfold add_history. simpl.
  repeat rewrite <- app_assoc. reflexivity.
Qed.

(** X6. A frame the codec writes for an Update envelope is applied in
    full: from the bytes of [[1, [mapSize, appeared, updated, disappeared,
    destroyed]]] the handler replaces the map size and makes the calls for
    the four lists in order, and returns normally. *)
Theorem onMessage_update_frame
        (m : value) (appeared updated disappeared destroyed : list value)
        (frame : list Z) (rt : Runtime) :
  Msgpack.encode (VArr [VNum 1; update_payload m appeared updated disappeared destroyed])
  = Some frame ->
  onMessage frame rt
  = (Return tt,
     mkRuntime (console rt)
       (mkGame m (mainPlayerId (game rt)) (spectatingId (game rt))
          (history (game rt)
           ++ SetMapSize m
           :: map AddEntity appeared
           ++ map UpdateEntity updated
           ++ map (fun i => RemoveEntity i false) disappeared
           ++ map (fun i => RemoveEntity i true) destroyed))
       (socket rt)).
Proof.
  intros Henc. rewrite (onMessage_decoded _ _ _ (decode_encode _ _ Henc)).
  unfold dispatch, bind, lift. simpl.
  change (act_on_type (VNum 1) (update_payload m appeared updated disappeared destroyed) rt)
    with (onUpdate (update_payload m appeared updated disappeared destroyed) rt).
  apply onUpdate_run.
Qed.

End DispatchFacts.

(** ** What inbound processing can and cannot change *)

Section InboundFacts.

Import Connection.

Lemma runtime_eta (rt : Runtime) :
  mkRuntime (console rt ++ []) (game rt) (socket rt) = rt.
Proof. destruct rt. simpl. now rewrite app_nil_r. Qed.

Lemma uniform_silent {A} (c : Completion A) (m : Js A) :
  (forall rt, m rt = (c, rt)) -> uniform m.
Proof.
  intros H. exists c, [], (fun g => g). intros rt.
  now rewrite H, runtime_eta.
Qed.

Lemma uniform_lift {A} (c : Completion A) : uniform (lift c).
Proof. now apply (uniform_silent c). Qed.

Lemma uniform_write (entry : LogEntry) : uniform (console_write entry).
Proof. exists (Return tt), [entry], (fun g => g). reflexivity. Qed.

Lemma uniform_game (m : Js unit) (g : Game -> Game) :
  (forall rt, m rt = (Return tt, mkRuntime (console rt) (g (game rt)) (socket rt))) ->
  uniform m.
Proof.
  intros H. exists (Return tt), [], g. intros rt.
  rewrite H. now rewrite app_nil_r.
Qed.

Lemma uniform_game_call (eff : GameEffect) : uniform (game_call eff).
Proof.
  apply (uniform_game _ (fun g => mkGame (mapSize g) (mainPlayerId g) (spectatingId g)
                                         (history g ++ [eff]))).
  reflexivity.
Qed.

Lemma uniform_set_mapSize (v : value) : uniform (set_mapSize v).
Proof.
  apply (uniform_game _ (fun g => mkGame v (mainPlayerId g) (spectatingId g)
                                         (history g ++ [SetMapSize v]))).
  reflexivity.
Qed.

Lemma uniform_set_mainPlayerId (v : value) : uniform (set_mainPlayerId v).
Proof.
  apply (uniform_game _ (fun g => mkGame (mapSize g) v (spectatingId g)
                                         (history g ++ [SetMainPlayerId v]))).
  reflexivity.
Qed.

Lemma uniform_set_spectatingId (v : value) : uniform (set_spectatingId v).
Proof.
  apply (uniform_game _ (fun g => mkGame (mapSize g) (mainPlayerId g) v
                                         (history g ++ [SetSpectatingId v]))).
  reflexivity.
Qed.

Lemma uniform_bind {A B} (m : Js A) (k : A -> Js B) :
  uniform m -> (forall a, uniform (k a)) -> uniform (bind m k).
Proof.
  intros (c & l1 & g1 & Hm) Hk. destruct c as [a | e |].
  - destruct (Hk a) as (c2 & l2 & g2 & Hka).
    exists c2, (l1 ++ l2), (fun g => g2 (g1 g)). intros rt.
    unfold bind. rewrite Hm, Hka. simpl. now rewrite app_assoc.
  - exists (Throw e), l1, g1. intros rt. unfold bind. now rewrite Hm.
  - exists OutOfModel, l1, g1. intros rt. unfold bind. now rewrite Hm.
Qed.

Lemma uniform_forEach {A} (f : A -> Js unit) (items : list A) :
  (forall x, uniform (f x)) -> uniform (forEach f items).
Proof.
  intros Hf. induction items as [| x rest IH]; simpl.
  - now apply (uniform_silent (Return tt)).
  - apply uniform_bind; [apply Hf | intros _; exact IH].
Qed.

Lemma uniform_forEach_of (v : value) (f : value -> Js unit) :
  (forall x, uniform (f x)) -> uniform (forEach_of v f).
Proof.
  intros Hf. destruct v; simpl;
    try (now apply (uniform_silent (Throw TypeError))).
  now apply uniform_forEach.
Qed.

Lemma uniform_onUpdate (data : value) : uniform (onUpdate data).
Proof.
  unfold onUpdate.
  repeat (first
    [ apply uniform_bind; [| intros ?]
    | apply uniform_lift
    | apply uniform_set_mapSize
    | apply uniform_forEach_of; intros ?
    | apply uniform_game_call ]).
Qed.

Lemma uniform_onJoin (data : value) : uniform (onJoin data).
Proof.
  unfold onJoin. apply uniform_bind; [apply uniform_set_mainPlayerId | intros _].
  apply uniform_set_spectatingId.
Qed.

Lemma uniform_onMessage (frame : list Z) : uniform (onMessage frame).
Proof.
  unfold onMessage. destruct (Msgpack.decode frame) as [messageData | |].
  - unfold dispatch.
    apply uniform_bind; [apply uniform_lift | intros type].
    apply uniform_bind; [apply uniform_lift | intros data].
    change (missing_type_guard type) with false. cbv match.
    unfold act_on_type.
    destruct (strict_eq_num type IncomingMessageType.Join); [apply uniform_onJoin |].
    destruct (strict_eq_num type IncomingMessageType.Update); [apply uniform_onUpdate |].
    apply uniform_write.
  - apply uniform_write.
  - now apply (uniform_silent OutOfModel).
Qed.

Lemma onMessage_socket (frame : list Z) (rt : Runtime) :
  socket (snd (onMessage frame rt)) = socket rt.
Proof.
  destruct (uniform_onMessage frame) as (c & l & g & H). now rewrite H.
Qed.

Lemma onMessage_game_blind (frame : list Z) (rt1 rt2 : Runtime) :
  game rt1 = game rt2 ->
  game (snd (onMessage frame rt1)) = game (snd (onMessage frame rt2)).
Proof.
  intros E. destruct (uniform_onMessage frame) as (c & l & g & H).
  rewrite !H. simpl. now rewrite E.
Qed.

(** X7. Inbound processing never writes to the socket: whatever frames
    arrive, and however their handlers end, no frame is sent and the
    ready state is as it was. *)
Theorem deliver_keeps_socket (frames : list (list Z)) :
  forall rt, socket (deliver frames rt) = socket rt.
Proof.
  induction frames as [| frame rest IH]; intros rt; [reflexivity |].
  unfold deliver in *. simpl. rewrite IH. apply onMessage_socket.
Qed.

(** X8. Frames on which the decoder throws leave no trace in the game,
    wherever they occur in the stream: the game after a sequence of frames
    is the game after the same sequence without them. *)
Theorem deliver_skips_malformed (frames : list (list Z)) (rt : Runtime) :
  game (deliver frames rt)
  = game (deliver (filter (fun frame => negb (is_malformed frame)) frames) rt).
Proof.
  enough (H : forall rt1 rt2, game rt1 = game rt2 ->
            game (deliver frames rt1)
            = game (deliver (filter (fun frame => negb (is_malformed frame)) frames) rt2))
    by now apply H.
  induction frames as [| frame rest IH]; intros rt1 rt2 E; [exact E |].
  unfold deliver in *. simpl.
  destruct (is_malformed frame) eqn:Hbad; simpl.
  - apply IH. rewrite <- E. unfold is_malformed in Hbad. unfold onMessage.
    destruct (Msgpack.decode frame); try discriminate Hbad. reflexivity.
  - apply IH. now apply onMessage_game_blind.
Qed.

(** *** Observations a handler leaves alone *)

Section Preserved.

Context {B : Type} (f : Runtime -> B).

Lemma preserves_silent {A} (m : Js A) :
  (forall rt, snd (m rt) = rt) -> preserves f m.
Proof. intros H rt. now rewrite H. Qed.

Lemma preserves_bind {A C} (m : Js A) (k : A -> Js C) :
  preserves f m -> (forall a, preserves f (k a)) -> preserves f (bind m k).
Proof.
  intros Hm Hk rt. unfold bind. specialize (Hm rt).
  destruct (m rt) as [[a | e |] rt1]; simpl in *; [| exact Hm | exact Hm].
  rewrite (Hk a rt1). exact Hm.
Qed.

Lemma preserves_forEach {A} (g : A -> Js unit) (items : list A) :
  (forall x, preserves f (g x)) -> preserves f (forEach g items).
Proof.
  intros Hg. induction items as [| x rest IH]; simpl.
  - now apply preserves_silent.
  - apply preserves_bind; [apply Hg | intros _; exact IH].
Qed.

Lemma preserves_onUpdate (data : value) :
  (forall v, preserves f (set_mapSize v)) ->
  (forall eff, preserves f (game_call eff)) ->
  preserves f (onUpdate data).
Proof.
  intros Hset Hcall. unfold onUpdate.
  repeat (first
    [ apply preserves_bind; [| intros ?]
    | apply Hset
    | apply Hcall
    | (apply preserves_silent; reflexivity)
    | match goal with
      | |- preserves f (forEach_of ?v _) =>
          destruct v; simpl;
          [ apply preserves_silent; reflexivity ..
          | apply preserves_forEach; intros ?
          | apply preserves_silent; reflexivity ]
      end ]).
Qed.

End Preserved.

(** X9. Whatever its payload and however it ends, [onUpdate] changes
    neither the main player, nor the spectated player, nor the console,
    nor the socket: all it can do is replace the map size and call the
    three entity methods of the game. *)
Theorem onUpdate_beside_the_map (data : value) (rt : Runtime) :
  beside_the_map (snd (onUpdate data rt)) = beside_the_map rt.
Proof.
  apply (preserves_onUpdate beside_the_map); intros ? ?; reflexivity.
Qed.

Lemma onUpdate_players (data : value) (rt : Runtime) :
  mainPlayerId (game (snd (onUpdate data rt))) = mainPlayerId (game rt)
  /\ spectatingId (game (snd (onUpdate data rt))) = spectatingId (game rt).
Proof.
  pose proof (preserves_onUpdate
                (fun rt => (mainPlayerId (game rt), spectatingId (game rt))) data) as H.
  specialize (H (fun _ _ => eq_refl) (fun _ _ => eq_refl) rt). simpl in H.
  now inversion H.
Qed.

Lemma onMessage_players (frame : list Z) (rt : Runtime) :
  mainPlayerId (game rt) = spectatingId (game rt) ->
  mainPlayerId (game (snd (onMessage frame rt)))
  = spectatingId (game (snd (onMessage frame rt))).
Proof.
  intros E. unfold onMessage.
  destruct (Msgpack.decode frame) as [messageData | |]; [| exact E | exact E].
  unfold dispatch, bind, lift.
  destruct (get_index messageData 0) as [type | |]; [| exact E | exact E].
  destruct (get_index messageData 1) as [data | |]; [| exact E | exact E].
  change (missing_type_guard type) with false. cbv match.
  unfold act_on_type.
  destruct (strict_eq_num type IncomingMessageType.Join); [reflexivity |].
  destruct (strict_eq_num type IncomingMessageType.Update); [| exact E].
  destruct (onUpdate_players data rt) as [Hm Hs]. now rewrite Hm, Hs.
Qed.

(** X10. The main player and the spectated player move together: if they
    are the same before a sequence of frames, they are the same after it,
    whatever the frames contain. *)
Theorem deliver_keeps_players_together (frames : list (list Z)) :
  forall rt,
    mainPlayerId (game rt) = spectatingId (game rt) ->
    mainPlayerId (game (deliver frames rt)) = spectatingId (game (deliver frames rt)).
Proof.
  induction frames as [| frame rest IH]; intros rt E; [exact E |].
  unfold deliver in *. simpl. apply IH. now apply onMessage_players.
Qed.

End InboundFacts.

(** ** What the senders hand to the socket *)

Section SenderFacts.

Import Connection.

Lemma sendMessage_frame (type : Z) (data : value) (rt : Runtime) :
  encodes (VArr [VNum type; data]) ->
  exists binary,
    sendCalls (socket (snd (sendMessage type data rt))) = sendCalls (socket rt) ++ [binary]
    /\ Msgpack.decode binary = Msgpack.Got (VArr [VNum type; data])
    /\ game (snd (sendMessage type data rt)) = game rt
    /\ console (snd (sendMessage type data rt)) = console rt.
Proof.
  intros [binary Henc]. exists binary.
  unfold sendMessage. unfold Msgpack.encode. rewrite Henc.
  unfold socket_send. destruct (readyState (socket rt)); simpl;
    (split; [reflexivity |]); (split; [now apply decode_encode |]);
    split; reflexivity.
Qed.

(** X11. [sendMove(x, y)], for integers a number holds exactly, hands the
    socket one frame, and that frame decodes to [[1, [x, y]]]; the game and
    the console are not touched. *)
Theorem sendMove_frame (x y : Z) (rt : Runtime) :
  Wire.is_safe_integer x = true ->
  Wire.is_safe_integer y = true ->
  exists binary,
    sendCalls (socket (snd (sendMove x y rt))) = sendCalls (socket rt) ++ [binary]
    /\ Msgpack.decode binary = Msgpack.Got (VArr [VNum 1; VArr [VNum x; VNum y]])
    /\ game (snd (sendMove x y rt)) = game rt
    /\ console (snd (sendMove x y rt)) = console rt.
Proof.
  intros Hx Hy. apply sendMessage_frame.
  apply encodes_array; [reflexivity |].
  repeat constructor.
  - now apply encodes_int.
  - apply encodes_index. simpl. now rewrite Hx, Hy.
Qed.

(** X12. [sendJoin(username)] hands the socket one frame, and that frame
    decodes to [[0, username]], for every username shorter than 2^32
    bytes; the game and the console are not touched. *)
Theorem sendJoin_frame (username : string) (rt : Runtime) :
  Wire.fits (String.length username) = true ->
  exists binary,
    sendCalls (socket (snd (sendJoin username rt))) = sendCalls (socket rt) ++ [binary]
    /\ Msgpack.decode binary = Msgpack.Got (VArr [VNum 0; VStr username])
    /\ game (snd (sendJoin username rt)) = game rt
    /\ console (snd (sendJoin username rt)) = console rt.
Proof.
  intros Hfit. apply sendMessage_frame.
  apply encodes_array; [reflexivity |].
  repeat constructor.
  - now apply encodes_int.
  - apply encodes_username. exact Hfit.
Qed.

End SenderFacts.


(** ** Sequences of calls on an entity *)

Section EntityCallFacts.

Variable float : Type.
Variables toX toY : Z -> float.   (* indexToGlobalX, indexToGlobalY *)

(** One call: it returns normally and leaves the runtime alone; what it
    does to each field. *)
Lemma do_call_facts (c : EntityCall float) (this : Entity float) (rt : Runtime) :
  exists this',
    do_call toX toY c this rt = (Return this', rt)
    /\ autoPosition this' = autoPosition this
    /\ kind this' = match c with
                    | DoInitEntity data => Some (init_kind data)
                    | _ => kind this
                    end
    /\ (reachable this -> reachable this')
    /\ (autoPosition this = false ->
        position this' = match c with
                         | DoInitEntity data => projected toX toY (init_index data)
                         | _ => position this
                         end)
    /\ (autoPosition this = true -> is_setter c = false ->
        placed toX toY this -> placed toX toY this').
Proof.
  unfold reachable, placed, projected.
  destruct this as [s k i ix ap pos].
  destruct c as [[di dk [dx dy]] | [ui [ux uy]] | animated | | | dt | x y | [x y] | x | y];
    try destruct animated;
    cbn [do_call destroyEntity animateDestroy update BaseEntity];
    unfold initEntity, updateEntity, moveToArray, moveTo, finishDestroy, ret;
    cbn; try (destruct ap); cbn;
    eexists; (split; [reflexivity |]); cbn;
    repeat split; auto; try discriminate; try tauto;
    intros; subst; auto; try discriminate; try tauto.
Qed.

Lemma do_calls_cons (c : EntityCall float) (rest : list (EntityCall float))
      (this this' : Entity float) (rt : Runtime) :
  do_call toX toY c this rt = (Return this', rt) ->
  do_calls toX toY (c :: rest) this rt = do_calls toX toY rest this' rt.
Proof. intros H. simpl. unfold bind. now rewrite H. Qed.

(** X13. From a fresh entity, no sequence of calls of the methods of the
    abstract class reaches DestroyingAnimated or Destroyed: every call
    returns normally, the entity is in PendingCreation, Alive or
    PendingDestroy, and outside Alive its identity is -1. *)
Theorem do_calls_reachable (cs : list (EntityCall float)) (origin : float) (rt : Runtime) :
  exists this',
    do_calls toX toY cs (newEntity origin) rt = (Return this', rt)
    /\ (state this' = PendingCreation \/ state this' = Alive \/ state this' = PendingDestroy)
    /\ (state this' = Alive \/ id this' = -1).
Proof.
  assert (H : forall this, reachable this ->
            exists this', do_calls toX toY cs this rt = (Return this', rt)
                          /\ reachable this').
  { induction cs as [| c rest IH]; intros this Hr.
    - exists this. split; [reflexivity | exact Hr].
    - destruct (do_call_facts c this rt) as (this1 & Hrun & _ & _ & Hreach & _).
      destruct (IH this1 (Hreach Hr)) as (this2 & Hrun2 & Hr2).
      exists this2. split; [| exact Hr2].
      now rewrite (do_calls_cons _ _ _ _ _ Hrun). }
  destruct (H (newEntity origin)) as (this' & Hrun & Hr).
  { left. split; reflexivity. }
  exists this'. split; [exact Hrun |].
  unfold reachable in Hr. destruct Hr as [[Hs Hi] | [Hs | [Hs Hi]]]; auto.
Qed.

(** X14. Only [initEntity] sets the kind, and nothing sets the
    auto-position flag: after any sequence of calls the flag is as before
    and the kind is the one of the last [initEntity] among them, or the
    previous kind when there is none. *)
Theorem do_calls_kind (cs : list (EntityCall float)) :
  forall (this : Entity float) (rt : Runtime),
  exists this',
    do_calls toX toY cs this rt = (Return this', rt)
    /\ autoPosition this' = autoPosition this
    /\ kind this' = match last_init cs with
                    | Some data => Some (init_kind data)
                    | None => kind this
                    end.
Proof.
  induction cs as [| c rest IH]; intros this rt.
  - exists this. repeat split.
  - destruct (do_call_facts c this rt) as (this1 & Hrun & Hap & Hk & _).
    destruct (IH this1 rt) as (this2 & Hrun2 & Hap2 & Hk2).
    exists this2. rewrite (do_calls_cons _ _ _ _ _ Hrun).
    split; [exact Hrun2 |]. split; [congruence |].
    rewrite Hk2. simpl. destruct (last_init rest); [reflexivity |].
    rewrite Hk. destruct c; reflexivity.
Qed.

(** X15. An entity without auto-positioning is moved on screen by
    [initEntity] only: after any sequence of calls its visual position is
    the projection of the index of the last [initEntity] among them, or
    its previous position when there is none, whatever updates and moves
    its index went through. *)
Theorem do_calls_position_fixed (cs : list (EntityCall float)) :
  forall (this : Entity float) (rt : Runtime),
  autoPosition this = false ->
  exists this',
    do_calls toX toY cs this rt = (Return this', rt)
    /\ position this' = match last_init cs with
                        | Some data => projected toX toY (init_index data)
                        | None => position this
                        end.
Proof.
  induction cs as [| c rest IH]; intros this rt Hap.
  - exists this. repeat split.
  - destruct (do_call_facts c this rt) as (this1 & Hrun & Hap1 & _ & _ & Hpos & _).
    destruct (IH this1 rt) as (this2 & Hrun2 & Hpos2); [congruence |].
    exists this2. rewrite (do_calls_cons _ _ _ _ _ Hrun).
    split; [exact Hrun2 |].
    rewrite Hpos2. simpl. destruct (last_init rest); [reflexivity |].
    rewrite (Hpos Hap). destruct c; reflexivity.
Qed.

(** X16. An auto-positioned entity whose visual position is the projection
    of its grid index keeps that through every sequence of calls of the
    methods; only the bare index setters [x] and [y] can separate the
    two. *)
Theorem do_calls_placed (cs : list (EntityCall float)) :
  forall (this : Entity float) (rt : Runtime),
  autoPosition this = true ->
  forallb (fun c => negb (is_setter c)) cs = true ->
  position this = projected toX toY (index this) ->
  exists this',
    do_calls toX toY cs this rt = (Return this', rt)
    /\ position this' = projected toX toY (index this').
Proof.
  induction cs as [| c rest IH]; intros this rt Hap Hcs Hpl.
  - exists this. repeat split. exact Hpl.
  - simpl in Hcs. apply andb_true_iff in Hcs as [Hc Hrest].
    apply negb_true_iff in Hc.
    destruct (do_call_facts c this rt) as (this1 & Hrun & Hap1 & _ & _ & _ & Hplaced).
    destruct (IH this1 rt) as (this2 & Hrun2 & Hpl2);
      [congruence | exact Hrest | exact (Hplaced Hap Hc Hpl) |].
    exists this2. rewrite (do_calls_cons _ _ _ _ _ Hrun). split; assumption.
Qed.

(** X17. The last update wins: an update followed by another leaves the
    entity as the second one alone would, grid index and visual position
    included. *)
Theorem updateEntity_last_wins (first second : EntityUpdateData)
        (this : Entity float) (rt : Runtime) :
  (this1 <- updateEntity toX toY first this ;; updateEntity toX toY second this1) rt
  = updateEntity toX toY second this rt.
Proof.
  unfold bind, updateEntity, moveToArray.
  rewrite !moveTo_run. simpl.
  destruct (autoPosition this); reflexivity.
Qed.

End EntityCallFacts.

(** ** More concrete runs *)

(** X1, witness: the Join frame [[0, 7]]. *)
Lemma onMessage_join_sets_players_witness :
  Connection.onMessage [0x92; 0; 7] (fresh_runtime OPEN)
  = (Return tt,
     mkRuntime []
       (mkGame VUndefined (VNum 7) (VNum 7)
               ([] ++ [SetMainPlayerId (VNum 7); SetSpectatingId (VNum 7)]))
       (mkWebSocket OPEN [])).
Proof.
  apply (onMessage_join_sets_players [0x92; 0; 7] (VArr [VNum 0; VNum 7]) (VNum 7)
           (fresh_runtime OPEN)); reflexivity.
Defined.

(** X2, witness: the frame [["x", 0]], whose type is a string. *)
Lemma onMessage_unknown_type_witness :
  Connection.onMessage [0x92; 0xa1; 120; 0] (fresh_runtime OPEN)
  = (Return tt, add_console (LogUnknownType (VStr "x")) (fresh_runtime OPEN)).
Proof.
  apply (onMessage_unknown_type [0x92; 0xa1; 120; 0] (VArr [VStr "x"; VNum 0])
           (VStr "x") (VNum 0) (fresh_runtime OPEN)); reflexivity.
Defined.

(** X3, witness: the one-byte frame of nil. *)
Lemma onMessage_null_throws_witness :
  Connection.onMessage [0xc0] (fresh_runtime OPEN) = (Throw TypeError, fresh_runtime OPEN)
  /\ forall later,
       Connection.deliver ([0xc0] :: later) (fresh_runtime OPEN)
       = Connection.deliver later (fresh_runtime OPEN).
Proof.
  apply (onMessage_null_throws [0xc0] VNull (fresh_runtime OPEN)); reflexivity.
Defined.

(** X4, witness: the payload [[50, [1], []]], which ends before the
    disappeared ids. *)
Lemma onUpdate_stops_half_way_witness :
  Connection.onUpdate (VArr [VNum 50; VArr [VNum 1]; VArr []]) (fresh_runtime OPEN)
  = (Throw TypeError,
     mkRuntime []
       (mkGame (VNum 50) VUndefined VUndefined
               ([] ++ [SetMapSize (VNum 50); AddEntity (VNum 1)]))
       (mkWebSocket OPEN [])).
Proof.
  apply (onUpdate_stops_half_way [VNum 50; VArr [VNum 1]; VArr []] [VNum 1] []
           (fresh_runtime OPEN)); reflexivity.
Defined.

(** X6, witness: the frame of [[1, [50, [], [], [7], []]]]. *)
Lemma onMessage_update_frame_witness :
  Connection.onMessage [0x92; 1; 0x95; 50; 0x90; 0x90; 0x91; 7; 0x90] (fresh_runtime OPEN)
  = (Return tt,
     mkRuntime []
       (mkGame (VNum 50) VUndefined VUndefined
               ([] ++ [SetMapSize (VNum 50); RemoveEntity (VNum 7) false]))
       (mkWebSocket OPEN [])).
Proof.
  apply (onMessage_update_frame (VNum 50) [] [] [VNum 7] []
           [0x92; 1; 0x95; 50; 0x90; 0x90; 0x91; 7; 0x90] (fresh_runtime OPEN)).
  reflexivity.
Defined.

(** X10, witness: a Join frame followed by a frame of nil, on a fresh
    page. *)
Lemma deliver_keeps_players_together_witness :
  let rt := Connection.deliver [[0x92; 0; 7]; [0xc0]] (fresh_runtime OPEN) in
  mainPlayerId (game rt) = spectatingId (game rt).
Proof.
  apply (deliver_keeps_players_together [[0x92; 0; 7]; [0xc0]] (fresh_runtime OPEN)).
  reflexivity.
Defined.

(** X11, witness: [sendMove(4, 9)]. *)
Lemma sendMove_frame_witness :
  exists binary,
    sendCalls (socket (snd (Connection.sendMove 4 9 (fresh_runtime OPEN)))) = [] ++ [binary]
    /\ Msgpack.decode binary = Msgpack.Got (VArr [VNum 1; VArr [VNum 4; VNum 9]])
    /\ game (snd (Connection.sendMove 4 9 (fresh_runtime OPEN))) = game (fresh_runtime OPEN)
    /\ console (snd (Connection.sendMove 4 9 (fresh_runtime OPEN))) = [].
Proof.
  apply (sendMove_frame 4 9 (fresh_runtime OPEN)); reflexivity.
Defined.

(** X12, witness: [sendJoin("bob")]. *)
Lemma sendJoin_frame_witness :
  exists binary,
    sendCalls (socket (snd (Connection.sendJoin "bob" (fresh_runtime OPEN)))) = [] ++ [binary]
    /\ Msgpack.decode binary = Msgpack.Got (VArr [VNum 0; VStr "bob"])
    /\ game (snd (Connection.sendJoin "bob" (fresh_runtime OPEN))) = game (fresh_runtime OPEN)
    /\ console (snd (Connection.sendJoin "bob" (fresh_runtime OPEN))) = [].
Proof.
  apply (sendJoin_frame "bob" (fresh_runtime OPEN)); reflexivity.
Defined.

(** X15, witness: an update of an entity without auto-positioning; the
    index moves to (7, 8), the position stays at (64, 96). *)
Lemma do_calls_position_fixed_witness :
  exists this',
    do_calls tile tile [DoUpdateEntity (mkUpdateData 1 (7, 8))] born (fresh_runtime OPEN)
    = (Return this', fresh_runtime OPEN)
    /\ position this' = (64, 96).
Proof.
  apply (do_calls_position_fixed Z tile tile [DoUpdateEntity (mkUpdateData 1 (7, 8))]
           born (fresh_runtime OPEN)).
  reflexivity.
Defined.

(** X16, witness: a move of an auto-positioned entity that stands where
    its index says. *)
Lemma do_calls_placed_witness :
  let this := mkEntity Z Alive (Some 0) 1 (2, 3) true (64, 96) in
  exists this',
    do_calls tile tile [DoMoveTo 7 8] this (fresh_runtime OPEN)
    = (Return this', fresh_runtime OPEN)
    /\ position this' = projected tile tile (index this').
Proof.
  intros this.
  apply (do_calls_placed Z tile tile [DoMoveTo 7 8] this (fresh_runtime OPEN));
    reflexivity.
Defined.
